(** * xpmir: the Anserini indexing pipeline and what goes with it

    A shallow embedding of [src/xpmir/interfaces/anserini.py]:
    - the three log patterns [RE_FILES], [RE_FILE], [RE_COMPLETE] and the
      backtracking matcher that [re.match] runs on them;
    - the loop of [IndexCollection.execute.run] that drains the child's
      standard output, the resolution of the exit status, and the scope
      of the generator around them;
    - the producer [_generator] of [csv_collection], from the text of the
      source file to the documents on the channel;
    - the [StreamGenerator] thread and its scope;
    - the [Handler] dispatcher of [xpmir.utils];
    and of the folds of [src/xpmir/datasets/robust.py], of
    [InteractionScorer.save] of [src/xpmir/neural/__init__.py] and of
    [TrecEval] of [src/experimaestro_ir/evaluation.py].

    Python [bytes] are lists of [byte]; Python [str] values are lists of
    Unicode code points. What is taken from the environment and not
    modelled: [progress] and [sys.stdout] accept whatever they are given;
    the lines of the child are within the limit of the stream reader;
    [int] has no limit on the number of digits; the child process starts;
    the source file of a csv collection is valid UTF-8 and does not
    change while it is read. *)

From Stdlib Require Import ZArith NArith Lia Bool.
From Stdlib Require Import Strings.Byte Strings.Ascii Strings.String.
From Stdlib Require Import Numbers.DecimalString Sorting.Sorted.
From stdpp Require Import base option list gmap strings sorting.

Local Open Scope Z_scope.

(** ** Bytes and text *)

Abbreviation bytes := (list byte).

(** A Python [str]: a sequence of code points. *)
Abbreviation str := (list N).

(** The bytes of an ASCII literal. *)
Definition b (s : string) : bytes := list_byte_of_string s.

(** The code points of an ASCII literal. *)
Definition u (s : string) : str := List.map Byte.to_N (list_byte_of_string s).

Definition byte_in (lo hi : N) (c : byte) : bool :=
  ((lo <=? Byte.to_N c) && (Byte.to_N c <=? hi))%N.

(** [prefix.startswith]: the rest of [s] after the prefix [p], if any. *)
Fixpoint strip_prefix {A} (eqb : A -> A -> bool) (p s : list A) : option (list A) :=
  match p, s with
  | [], _ => Some s
  | x :: p', y :: s' => if eqb x y then strip_prefix eqb p' s' else None
  | _ :: _, [] => None
  end.

(** ** Exceptions

    The exceptions the modelled code can raise, and a computation that
    returns or raises. *)
Inductive exn : Type :=
| ValueError
| ZeroDivisionError
| UnicodeDecodeError
| AttributeError.

Inductive result (A : Type) : Type :=
| Ok (a : A)
| Raise (e : exn).
Arguments Ok {A} a.
Arguments Raise {A} e.

(** ** [bytes.decode("utf-8")], strict

    The decoder accepts the well-formed sequences of the Unicode standard
    (no overlong form, no surrogate, nothing above U+10FFFF) and raises
    [UnicodeDecodeError] on anything else; [None] stands for the raise. *)
Module Utf8.

Definition cont (c : byte) : bool := byte_in 0x80 0xBF c.

Definition low6 (c : byte) : N := N.land (Byte.to_N c) 0x3F.

Fixpoint decode (bs : bytes) : option str :=
  match bs with
  | [] => Some []
  | b0 :: r0 =>
    let n0 := Byte.to_N b0 in
    if byte_in 0x00 0x7F b0 then
      cons n0 <$> decode r0
    else if byte_in 0xC2 0xDF b0 then
      match r0 with
      | b1 :: r1 =>
        if cont b1
        then cons (N.shiftl (N.land n0 0x1F) 6 + low6 b1)%N <$> decode r1
        else None
      | _ => None
      end
    else if byte_in 0xE0 0xEF b0 then
      match r0 with
      | b1 :: b2 :: r2 =>
        if byte_in (if N.eqb n0 0xE0 then 0xA0 else 0x80)
                   (if N.eqb n0 0xED then 0x9F else 0xBF) b1 && cont b2
        then cons (N.shiftl (N.land n0 0x0F) 12 + N.shiftl (low6 b1) 6
                   + low6 b2)%N <$> decode r2
        else None
      | _ => None
      end
    else if byte_in 0xF0 0xF4 b0 then
      match r0 with
      | b1 :: b2 :: b3 :: r3 =>
        if byte_in (if N.eqb n0 0xF0 then 0x90 else 0x80)
                   (if N.eqb n0 0xF4 then 0x8F else 0xBF) b1
           && cont b2 && cont b3
        then cons (N.shiftl (N.land n0 0x07) 18 + N.shiftl (low6 b1) 12
                   + N.shiftl (low6 b2) 6 + low6 b3)%N <$> decode r3
        else None
      | _ => None
      end
    else None
  end.

End Utf8.

(** ** The [re] patterns

    The three patterns only repeat single-byte classes, so the syntax keeps
    repetition on classes. [exec] lists the ways a pattern can consume a
    prefix of the subject in the order in which the backtracking matcher of
    [re] tries them (a greedy repetition first takes all it can); [re.match]
    returns the first. The matcher state is the text captured by group 1
    and the rest of the subject. *)
Module Regex.

Inductive regex : Type :=
| Lit (bs : bytes)              (* a literal byte sequence *)
| Cls (p : byte -> bool)        (* one byte of a class *)
| Star (p : byte -> bool)       (* [p*], greedy *)
| Plus (p : byte -> bool)       (* [p+], greedy *)
| Cat (r1 r2 : regex)
| Group (r : regex).            (* the capturing group *)

(** [.] without DOTALL: any byte but the line feed. *)
Definition dot (c : byte) : bool := negb (Byte.eqb c x0a).
(** [\d] in a bytes pattern: ASCII digits only. *)
Definition digit (c : byte) : bool := byte_in 48 57 c.
(** [[\d,]] *)
Definition digit_or_comma (c : byte) : bool := digit c || Byte.eqb c x2c.

Definition mstate : Type := option bytes * bytes.

(** The rests after [p*], longest repetition first. *)
Fixpoint star_rests (p : byte -> bool) (s : bytes) : list bytes :=
  match s with
  | c :: s' => if p c then star_rests p s' ++ [s] else [s]
  | [] => [[]]
  end.

Definition plus_rests (p : byte -> bool) (s : bytes) : list bytes :=
  match s with
  | c :: s' => if p c then star_rests p s' else []
  | [] => []
  end.

Fixpoint exec (r : regex) (st : mstate) : list mstate :=
  match r with
  | Lit bs =>
    match strip_prefix Byte.eqb bs st.2 with
    | Some rest => [(st.1, rest)]
    | None => []
    end
  | Cls p =>
    match st.2 with
    | c :: rest => if p c then [(st.1, rest)] else []
    | [] => []
    end
  | Star p => List.map (pair st.1) (star_rests p st.2)
  | Plus p => List.map (pair st.1) (plus_rests p st.2)
  | Cat r1 r2 => List.flat_map (exec r2) (exec r1 st)
  | Group r =>
    List.map (fun st' : mstate =>
                (Some (take (length st.2 - length st'.2)%nat st.2), st'.2))
             (exec r st)
  end.

(** [pattern.match(data)]: [None] when there is no match, otherwise the
    text of group 1 ([None] inside when the pattern has no group). *)
Definition re_match (r : regex) (data : bytes) : option (option bytes) :=
  fst <$> head (exec r (None, data)).

Definition matches (r : regex) (data : bytes) : bool :=
  bool_decide (is_Some (re_match r data)).

Fixpoint cat (rs : list regex) : regex :=
  match rs with
  | [] => Lit []
  | [r] => r
  | r :: rs' => Cat r (cat rs')
  end.

(** The texts a pattern can consume, with the captured text before and
    after: what [exec] finds, whatever the order of its tries. *)
Fixpoint capture (r : regex) (w : bytes) (g g' : option bytes) : Prop :=
  match r with
  | Lit bs => w = bs ∧ g' = g
  | Cls p => (∃ c, w = [c] ∧ p c = true) ∧ g' = g
  | Star p => Forall (fun c => p c = true) w ∧ g' = g
  | Plus p => (w ≠ [] ∧ Forall (fun c => p c = true) w) ∧ g' = g
  | Cat r1 r2 =>
    ∃ w1 w2 g1, w = w1 ++ w2 ∧ capture r1 w1 g g1 ∧ capture r2 w2 g1 g'
  | Group r => (∃ g0, capture r w g g0) ∧ g' = Some w
  end.

(** A text without a line feed. *)
Definition one_line (w : bytes) : Prop := Forall (fun c => dot c = true) w.

(** A text of ASCII digits, at least one. *)
Definition digits (w : bytes) : Prop :=
  w ≠ [] ∧ Forall (fun c => digit c = true) w.

(** A text of ASCII digits and commas, at least one character. *)
Definition count_text (w : bytes) : Prop :=
  w ≠ [] ∧ Forall (fun c => digit_or_comma c = true) w.

End Regex.

(** ** The process supervisor: [IndexCollection.execute.run] *)
Module Supervisor.
Import Regex.

(** [rb".*index\.IndexCollection \(IndexCollection.java:\d+\) - ([\d,]+) files found"] *)
Definition RE_FILES : regex :=
  cat [Star dot; Lit (b "index.IndexCollection (IndexCollection"); Cls dot;
       Lit (b "java:"); Plus digit; Lit (b ") - ");
       Group (Plus digit_or_comma); Lit (b " files found")].

(** [rb".*index\.IndexCollection\$LocalIndexerThread \(IndexCollection.java:\d+\).* docs added."] *)
Definition RE_FILE : regex :=
  cat [Star dot; Lit (b "index.IndexCollection$LocalIndexerThread (IndexCollection");
       Cls dot; Lit (b "java:"); Plus digit; Lit (b ")"); Star dot;
       Lit (b " docs added"); Cls dot].

(** [rb".*IndexCollection\.java.*Indexing Complete.*documents indexed"] *)
Definition RE_COMPLETE : regex :=
  cat [Star dot; Lit (b "IndexCollection.java"); Star dot;
       Lit (b "Indexing Complete"); Star dot; Lit (b "documents indexed")].

(** What the supervisor sends out: text written to [sys.stdout], a call
    [progress(num / den)] kept as the two integers of the quotient, and a
    message given to [logging.error]. *)
Inductive event : Type :=
| Stdout (text : str)
| Progress (num den : Z)
| LogError (msg : string).

(** The locals [nfiles], [indexedfiles] and [complete] of [run]. *)
Record progress_state : Type := mkState {
  nfiles : Z;
  indexedfiles : Z;
  complete : bool
}.

Definition initial_state : progress_state :=
  {| nfiles := -1; indexedfiles := 0; complete := false |}.

(** [s.replace] of the comma by the empty text. *)
Definition remove_commas (s : str) : str :=
  List.filter (fun c => negb (N.eqb c 44)) s.

(** [int(s)] for a text of ASCII digits, most significant first: the
    accumulator form of the decimal value. The empty text is a
    [ValueError]; so is, here, any text with another character: group 1
    of [RE_FILES] holds ASCII digits and commas only. *)
Fixpoint int_digits (acc : Z) (s : str) : option Z :=
  match s with
  | [] => Some acc
  | c :: s' =>
    if ((48 <=? c) && (c <=? 57))%N
    then int_digits (10 * acc + Z.of_N (c - 48)) s'
    else None
  end.

Definition int (s : str) : option Z :=
  match s with
  | [] => None
  | _ => int_digits 0 s
  end.

(** ["%d" % n] *)
Definition decimal (n : Z) : str := u (NilZero.string_of_int (Z.to_int n)).

(** [int] of group 1, decoded and without its commas; [m.group(1)] of a
    pattern without a group is the [AttributeError] of [None.decode]. *)
Definition group_value (g : option bytes) : result Z :=
  match g with
  | None => Raise AttributeError
  | Some text =>
    match Utf8.decode text with
    | None => Raise UnicodeDecodeError
    | Some t =>
      match int (remove_commas t) with
      | Some n => Ok n
      | None => Raise ValueError
      end
    end
  end.

(** The body of the [while] loop for one line [data] that is not empty. *)
Definition process_line (st : progress_state) (data : bytes)
  : result (progress_state * list event) :=
  let m := re_match RE_FILES data in
  let complete' := complete st || matches RE_COMPLETE data in
  match m with
  | Some g =>
    match group_value g with
    | Ok n =>
      Ok ({| nfiles := n; indexedfiles := indexedfiles st; complete := complete' |},
          [Stdout (decimal n ++ u " files to index" ++ [10%N])])
    | Raise e => Raise e
    end
  | None =>
    if matches RE_FILE data then
      let k := indexedfiles st + 1 in
      if nfiles st =? 0 then Raise ZeroDivisionError
      else Ok ({| nfiles := nfiles st; indexedfiles := k; complete := complete' |},
               [Progress k (nfiles st)])
    else
      match Utf8.decode data with
      | Some text =>
        Ok ({| nfiles := nfiles st; indexedfiles := indexedfiles st;
               complete := complete' |},
            [Stdout text])
      | None => Raise UnicodeDecodeError
      end
  end.

(** The outcome of draining the child's standard output: the state after
    each line processed (latest last), the events in order, and the
    exception that ended the loop, if one did. *)
Record drained : Type := mkDrained {
  history : list progress_state;
  events : list event;
  raised : option exn
}.

(** The [while True] loop over the lines that [proc.stdout.readline()]
    returns; the end of [stream] is the end of the child's output, where
    [readline] returns the empty bytes. *)
Fixpoint drain (st : progress_state) (stream : list bytes) : drained :=
  match stream with
  | [] => mkDrained [] [] None
  | data :: rest =>
    match data with
    | [] => mkDrained [] [] None                     (* if not data: break *)
    | _ =>
      match process_line st data with
      | Ok (st', evs) =>
        let d := drain st' rest in
        mkDrained (st' :: history d) (evs ++ events d) (raised d)
      | Raise e => mkDrained [] [] (Some e)
      end
    end
  end.

(** The state when the loop is left. *)
Definition final_state (st : progress_state) (d : drained) : progress_state :=
  List.last (history d) st.

(** How the body of the [with] statement of [run] ends: [sys.exit(code)],
    or an exception of the loop. *)
Inductive outcome : Type :=
| SystemExit (code : Z)
| Uncaught (e : exn).

(** Lines 176 to 183: the exit status from the child's [returncode] and the
    flag [complete]. *)
Definition resolve (returncode : Z) (complete : bool) : list event * Z :=
  if (returncode =? 0) && negb complete
  then ([LogError "Did not see the indexing complete log message -- exiting with error"], 1)
  else ([], returncode).

(** The body of the [with] statement of [run], lines 149 to 183: drain
    the child's output [stdout], wait for the child, which ends with
    [returncode], and exit. The exception that ends it then goes through
    [__exit__] of the generator: see [IndexCollection.run]. *)
Definition supervise (stdout : list bytes) (returncode : Z) : list event * outcome :=
  let d := drain initial_state stdout in
  match raised d with
  | Some e => (events d, Uncaught e)
  | None =>
    let r := resolve returncode (complete (final_state initial_state d)) in
    (events d ++ r.1, SystemExit r.2)
  end.

(** The lines the loop reads: those before the first empty one. *)
Fixpoint lines_read (stream : list bytes) : list bytes :=
  match stream with
  | [] => []
  | [] :: _ => []
  | data :: rest => data :: lines_read rest
  end.

(** Sample lines of an Anserini log. *)
Definition files_found_line (n : string) : bytes :=
  b "2020-05-01 10:00:00,123 INFO  [main] index.IndexCollection (IndexCollection.java:655) - "
  ++ b n ++ b " files found" ++ [x0a].

Definition docs_added_line : bytes :=
  b "2020-05-01 10:00:01,456 DEBUG [pool-2-thread-1] index.IndexCollection$LocalIndexerThread (IndexCollection.java:345) - corpus/part0.json: 25 docs added."
  ++ [x0a].

Definition complete_line : bytes :=
  b "2020-05-01 10:00:02,789 INFO  [main] index.IndexCollection (IndexCollection.java:878) - Indexing Complete! 100 documents indexed"
  ++ [x0a].

Definition other_line : bytes :=
  b "2020-05-01 10:00:00,001 INFO  [main] index.IndexCollection (IndexCollection.java:640) - Starting to index..."
  ++ [x0a].

(** A pattern without a group leaves the captured text alone. *)
Fixpoint no_group (r : regex) : Prop :=
  match r with
  | Cat r1 r2 => no_group r1 ∧ no_group r2
  | Group _ => False
  | _ => True
  end.

(** The scenario of the specification: 100 files announced, [n]
    docs-added lines, then the completion line. *)
Definition full_log (n : nat) : list bytes :=
  files_found_line "100" :: List.repeat docs_added_line n ++ [complete_line].

(** The integer a files-found line carries: the value of group 1 of the
    match of [RE_FILES]. *)
Definition carried_integer (data : bytes) : option Z :=
  match re_match RE_FILES data with
  | Some g => match group_value g with Ok n => Some n | Raise _ => None end
  | None => None
  end.

(** A line that takes the [elif] branch of the loop: it matches
    [RE_FILE] and not [RE_FILES]. *)
Definition per_unit (data : bytes) : bool :=
  negb (matches RE_FILES data) && matches RE_FILE data.

Definition is_progress (e : event) : bool :=
  match e with Progress _ _ => true | _ => false end.

(** The texts written to standard output, in order. *)
Definition stdout_of (evs : list event) : list str :=
  omap (fun e => match e with Stdout text => Some text | _ => None end) evs.

(** What a line puts on standard output when the loop gets through it. *)
Definition line_output (data : bytes) : list str :=
  if matches RE_FILES data then
    match carried_integer data with
    | Some n => [decimal n ++ u " files to index" ++ [10%N]]
    | None => []
    end
  else if matches RE_FILE data then []
  else
    match Utf8.decode data with
    | Some text => [text]
    | None => []
    end.

(** A line the loop gets through whatever came before, from a state
    whose [nfiles] is not 0: a files-found line carries an integer that
    is not 0, and a line to echo is valid UTF-8. *)
Definition line_ok (data : bytes) : bool :=
  if matches RE_FILES data then
    match carried_integer data with
    | Some n => negb (n =? 0)
    | None => false
    end
  else if matches RE_FILE data then true
  else bool_decide (is_Some (Utf8.decode data)).


End Supervisor.

(** The sum of a list of integers. *)
Definition list_sum_Z (l : list Z) : Z := List.fold_right Z.add 0 l.

(** ** The producer of [csv_collection]: [_generator] *)
Module CsvProducer.

(** [str.isspace] for one character: the white space of CPython's
    Unicode database. *)
Definition is_space (c : N) : bool :=
  ((9 <=? c) && (c <=? 13) || (28 <=? c) && (c <=? 32)
   || (c =? 0x85) || (c =? 0xA0) || (c =? 0x1680)
   || (0x2000 <=? c) && (c <=? 0x200A)
   || (c =? 0x2028) || (c =? 0x2029) || (c =? 0x202F)
   || (c =? 0x205F) || (c =? 0x3000))%N.

Fixpoint lstrip (s : str) : str :=
  match s with
  | c :: s' => if is_space c then lstrip s' else s
  | [] => []
  end.

Definition rstrip (s : str) : str := rev (lstrip (rev s)).

(** [s.strip()] *)
Definition strip (s : str) : str := rstrip (lstrip s).

(** The text before and the text after the first occurrence of [sep]. *)
Fixpoint find_split (sep s : str) : option (str * str) :=
  match strip_prefix N.eqb sep s with
  | Some rest => Some ([], rest)
  | None =>
    match s with
    | [] => None
    | c :: s' => prod_map (cons c) id <$> find_split sep s'
    end
  end.

(** [s.split(sep, 1)] *)
Definition split1 (sep s : str) : result (list str) :=
  match sep with
  | [] => Raise ValueError                            (* empty separator *)
  | _ =>
    match find_split sep s with
    | Some (before, after) => Ok [before; after]
    | None => Ok [s]
    end
  end.

(** [docid, text = line.strip().split(documents.separator, 1)] *)
Definition document (separator line : str) : result (str * str) :=
  match split1 separator (strip line) with
  | Ok [docid; text] => Ok (docid, text)
  | Ok _ => Raise ValueError                          (* unpacking *)
  | Raise e => Raise e
  end.

(** *** [json.dump] with its defaults ([ensure_ascii] on) *)

Definition hex_digit (n : N) : N := (if n <? 10 then 48 + n else 87 + n)%N.

(** The four lower-case hexadecimal digits of [n]. *)
Definition hex4 (n : N) : str :=
  [hex_digit (n / 4096 mod 16); hex_digit (n / 256 mod 16);
   hex_digit (n / 16 mod 16); hex_digit (n mod 16)]%N.

(** A backslash, [u] and four digits. *)
Definition escape_u (n : N) : str := [92; 117]%N ++ hex4 n.

Definition escape_char (c : N) : str :=
  (if c =? 34 then [92; 34]                  (* the double quote *)
   else if c =? 92 then [92; 92]             (* the backslash *)
   else if c =? 10 then [92; 110]            (* line feed: n *)
   else if c =? 13 then [92; 114]            (* carriage return: r *)
   else if c =? 9 then [92; 116]             (* tab: t *)
   else if c =? 12 then [92; 102]            (* form feed: f *)
   else if c =? 8 then [92; 98]              (* backspace: b *)
   else if (32 <=? c) && (c <=? 126) then [c]
   else if c <? 0x10000 then escape_u c
   else
     let v := c - 0x10000 in
     escape_u (N.lor 0xD800 (N.land (N.shiftr v 10) 0x3FF))
     ++ escape_u (N.lor 0xDC00 (N.land v 0x3FF)))%N.

(** A text as a JSON string. *)
Definition json_string (s : str) : str :=
  [34%N] ++ List.flat_map escape_char s ++ [34%N].

(** [json.dump] of the dictionary with the keys [id] and [contents]. *)
Definition json_document (docid text : str) : str :=
  [123%N] ++ json_string (u "id") ++ u ": " ++ json_string docid
  ++ u ", " ++ json_string (u "contents") ++ u ": " ++ json_string text
  ++ [125%N].

(** What the producer has done when it stops: the text written to [out],
    the calls [progress(counter / size)] as pairs, and the exception that
    stopped it, if one did. *)
Record produced : Type := mkProduced {
  out : str;
  reports : list (Z * Z);
  failure : option exn
}.

(** The [for] loop of [_generator] over the lines of the source file,
    each with its line end; [size] is [os.path.getsize] of the file. *)
Fixpoint generate (separator : str) (size counter : Z) (lines : list str)
  : produced :=
  match lines with
  | [] => mkProduced [] [] None
  | line :: rest =>
    let counter := counter + Z.of_nat (length line) in
    if size =? 0 then mkProduced [] [] (Some ZeroDivisionError)
    else
      match document separator line with
      | Raise e => mkProduced [] [(counter, size)] (Some e)
      | Ok (docid, text) =>
        let p := generate separator size counter rest in
        mkProduced (json_document docid text ++ [10%N] ++ out p)
                   ((counter, size) :: reports p) (failure p)
      end
  end.

Definition _generator (separator : str) (size : Z) (lines : list str) : produced :=
  generate separator size 0 lines.

(** A record of the source, and the line that holds it. *)
Definition record_line (separator : str) (r : str * str) : str :=
  r.1 ++ separator ++ r.2 ++ [10%N].





(** The characters from the space to the tilde. *)
Definition printable (c : N) : Prop := (32 <= c <= 126)%N.


(** The documents of the lines before the first line that is none. *)
Fixpoint documents_before_failure (separator : str) (lines : list str)
  : list (str * str) :=
  match lines with
  | [] => []
  | line :: rest =>
    match document separator line with
    | Ok r => r :: documents_before_failure separator rest
    | Raise _ => []
    end
  end.

(** The lines written for a list of documents. *)
Definition json_lines (records : list (str * str)) : str :=
  List.flat_map (fun r => json_document r.1 r.2 ++ [10%N]) records.

(** The number of bytes of a character in UTF-8. *)
Definition utf8_length (c : N) : Z :=
  if (c <? 0x80)%N then 1 else if (c <? 0x800)%N then 2
  else if (c <? 0x10000)%N then 3 else 4.

(** The least size of a file that reads as [lines]. *)
Definition byte_size (lines : list str) : Z :=
  list_sum_Z (List.map (fun line => list_sum_Z (List.map utf8_length line)) lines).

(** *** The source file

    The file is kept as the text it holds in UTF-8. *)

(** [os.path.getsize]: the number of bytes of the file. *)
Definition getsize (text : str) : Z := list_sum_Z (List.map utf8_length text).

(** The reading mode of [open("rt")], universal newlines: a carriage
    return, together with the line feed that follows it if one does, is
    read as a line feed. *)
Fixpoint universal_newlines (text : str) : str :=
  match text with
  | [] => []
  | c :: rest =>
    if (c =? 13)%N then
      10%N :: match rest with
              | c' :: rest' =>
                if (c' =? 10)%N then universal_newlines rest'
                else universal_newlines rest
              | [] => []
              end
    else c :: universal_newlines rest
  end.

(** The lines of a text, each with the line feed that ends it; the last
    one may have none. *)
Fixpoint split_lines (text : str) : list str :=
  match text with
  | [] => []
  | c :: rest =>
    if (c =? 10)%N then [c] :: split_lines rest
    else
      match split_lines rest with
      | [] => [[c]]
      | line :: lines => (c :: line) :: lines
      end
  end.

(** [for line in fp]: the lines that the file gives. *)
Definition read_lines (text : str) : list str :=
  split_lines (universal_newlines text).

(** [_generator] on the file that holds [text]. *)
Definition stream_file (separator text : str) : produced :=
  _generator separator (getsize text) (read_lines text).




(** A Unicode scalar value: a code point that is no surrogate. The text
    read from a UTF-8 file holds nothing else. *)
Definition scalar (c : N) : Prop :=
  (c < 0xD800 ∨ 0xDFFF < c ∧ c <= 0x10FFFF)%N.

(** Reading back what [escape_char] writes, to tell the characters of a
    JSON string apart. *)
Definition unhex (d : N) : option N :=
  (if (48 <=? d) && (d <=? 57) then Some (d - 48)
   else if (97 <=? d) && (d <=? 102) then Some (d - 87)
   else None)%N.

Definition unhex4 (s : str) : option (N * str) :=
  match s with
  | d3 :: d2 :: d1 :: d0 :: rest =>
    match unhex d3, unhex d2, unhex d1, unhex d0 with
    | Some a, Some b, Some c, Some d =>
      Some (4096 * a + 256 * b + 16 * c + d, rest)%N
    | _, _, _, _ => None
    end
  | _ => None
  end.

(** The character at the head of the inside of a JSON string, and what
    follows it; [None] at the closing quote. *)
Definition read_char (s : str) : option (N * str) :=
  match s with
  | [] => None
  | c :: rest =>
    (if c =? 34 then None
     else if c =? 92 then
       match rest with
       | [] => None
       | x :: rest' =>
         if x =? 117 then
           match unhex4 rest' with
           | Some (hi, rest2) =>
             if (0xD800 <=? hi) && (hi <=? 0xDBFF) then
               match strip_prefix N.eqb [92; 117] rest2 with
               | Some rest3 =>
                 match unhex4 rest3 with
                 | Some (lo, rest4) =>
                   Some (0x10000 + (hi - 0xD800) * 1024 + (lo - 0xDC00), rest4)
                 | None => None
                 end
               | None => None
               end
             else Some (hi, rest2)
           | None => None
           end
         else if x =? 34 then Some (34, rest')
         else if x =? 92 then Some (92, rest')
         else if x =? 110 then Some (10, rest')
         else if x =? 114 then Some (13, rest')
         else if x =? 116 then Some (9, rest')
         else if x =? 102 then Some (12, rest')
         else if x =? 98 then Some (8, rest')
         else None
       end
     else Some (c, rest))%N
  end.

End CsvProducer.

(** ** [StreamGenerator]: the producer thread and its scope

    The main thread and the producer thread are two step functions on one
    state; a schedule says which thread moves next. The file system is a
    map from directories to the names they hold. [join] is the one step
    of the main thread that waits for the other thread. Nothing but the
    generator touches its directory, and the reader of the fifo takes
    what is written: a write never waits for ever. *)
Module StreamGenerator.
Import CsvProducer.

Abbreviation fs := (gmap string (gset string)).

Inductive os_error : Type :=
| FileExistsError
| FileNotFoundError
| DirectoryNotEmpty.

(** [os.mkdir] of the directory that [tempfile.mkdtemp] creates. *)
Definition mkdir (d : string) (files : fs) : os_error + fs :=
  match files !! d with
  | Some _ => inl FileExistsError
  | None => inr (<[d := ∅]> files)
  end.

(** [os.mkfifo] *)
Definition mkfifo (d name : string) (files : fs) : os_error + fs :=
  match files !! d with
  | None => inl FileNotFoundError
  | Some names =>
    if decide (name ∈ names) then inl FileExistsError
    else inr (<[d := names ∪ {[name]}]> files)
  end.

(** [Path.unlink] *)
Definition unlink (d name : string) (files : fs) : os_error + fs :=
  match files !! d with
  | None => inl FileNotFoundError
  | Some names =>
    if decide (name ∈ names) then inr (<[d := names ∖ {[name]}]> files)
    else inl FileNotFoundError
  end.

(** [Path.rmdir] *)
Definition rmdir (d : string) (files : fs) : os_error + fs :=
  match files !! d with
  | None => inl FileNotFoundError
  | Some names =>
    if decide (names = ∅) then inr (delete d files) else inl DirectoryNotEmpty
  end.

Definition fifo_name : string := "fifo.json".

(** Does the path [d/name] exist? *)
Definition exists_in (d name : string) (files : fs) : Prop :=
  ∃ names, files !! d = Some names ∧ name ∈ names.

(** An exception going up through the main thread. *)
Inductive exc : Type :=
| Exit (code : Z)             (* [SystemExit] *)
| Error (e : exn)
| OsError (e : os_error).

(** The producer thread: [Thread.run] opens the fifo and calls the
    generator, which writes its chunks in turn and then returns or
    raises. An exception that leaves [run] ends the thread, and only the
    thread: [threading] reports it and keeps it from [join]. *)
Inductive thread : Type :=
| NotStarted
| Running (todo : list str)
| Finished (raised : option exn).

(** The main thread, by the statement it is about to run. *)
Inductive pc : Type :=
| Construct                          (* [__init__]: [tempfile.mkdtemp()] *)
| MakeFifo (d : string)              (* [__init__]: [os.mkfifo(self.filepath)] *)
| Enter (d : string)                 (* [__enter__]: [self.start()] *)
| Body (d : string) (n : nat)        (* the body of [with], [n] steps to go *)
| Join (d : string) (r : option exc)     (* [__exit__]: [self.join()] *)
| Unlink (d : string) (r : option exc)   (* [__exit__]: [self.filepath.unlink()] *)
| Rmdir (d : string) (r : option exc)    (* [__exit__]: [self.filepath.parent.rmdir()] *)
| Left (r : option exc)              (* after [with]; [r] is the exception going up *)
| Failed (e : os_error).             (* [__init__] raised *)

Record state : Type := mkState {
  files : fs;
  channel : list str;        (* what went into the fifo *)
  producer : thread;
  main : pc
}.

(** What a run is made of: the name [mkdtemp] picks, what the generator
    writes and how it ends, and how long the body of [with] runs and how
    it ends ([None]: it falls through). *)
Record scenario : Type := mkScenario {
  tmpdir : string;
  chunks : list str;
  producer_raises : option exn;
  body_steps : nat;
  body_end : option exc
}.

Definition initial (files0 : fs) : state :=
  mkState files0 [] NotStarted Construct.

(** One step of the main thread; [None] when it cannot move. *)
Definition main_step (c : scenario) (s : state) : option state :=
  match main s with
  | Construct =>
    match mkdir (tmpdir c) (files s) with
    | inr f => Some (mkState f (channel s) (producer s) (MakeFifo (tmpdir c)))
    | inl _ => None                  (* [mkdtemp] picks a name that is free *)
    end
  | MakeFifo d =>
    match mkfifo d fifo_name (files s) with
    | inr f => Some (mkState f (channel s) (producer s) (Enter d))
    | inl e => Some (mkState (files s) (channel s) (producer s) (Failed e))
    end
  | Enter d =>
    Some (mkState (files s) (channel s) (Running (chunks c)) (Body d (body_steps c)))
  | Body d (S n) => Some (mkState (files s) (channel s) (producer s) (Body d n))
  | Body d O => Some (mkState (files s) (channel s) (producer s) (Join d (body_end c)))
  | Join d r =>
    match producer s with
    | Finished _ => Some (mkState (files s) (channel s) (producer s) (Unlink d r))
    | _ => None                      (* [join] waits *)
    end
  | Unlink d r =>
    match unlink d fifo_name (files s) with
    | inr f => Some (mkState f (channel s) (producer s) (Rmdir d r))
    | inl e => Some (mkState (files s) (channel s) (producer s) (Left (Some (OsError e))))
    end
  | Rmdir d r =>
    match rmdir d (files s) with
    | inr f => Some (mkState f (channel s) (producer s) (Left r))
    | inl e => Some (mkState (files s) (channel s) (producer s) (Left (Some (OsError e))))
    end
  | Left _ | Failed _ => None
  end.

(** One step of the producer thread. *)
Definition producer_step (c : scenario) (s : state) : option state :=
  match producer s with
  | Running (x :: todo) =>
    Some (mkState (files s) (channel s ++ [x]) (Running todo) (main s))
  | Running [] =>
    Some (mkState (files s) (channel s) (Finished (producer_raises c)) (main s))
  | NotStarted | Finished _ => None
  end.

Inductive actor : Type := Main | Producer.

Definition step (c : scenario) (a : actor) (s : state) : option state :=
  match a with
  | Main => main_step c s
  | Producer => producer_step c s
  end.

(** The state after a schedule; [None] when the schedule asks a thread
    that cannot move. *)
Fixpoint exec (c : scenario) (sched : list actor) (s : state) : option state :=
  match sched with
  | [] => Some s
  | a :: sched' =>
    match step c a s with
    | Some s' => exec c sched' s'
    | None => None
    end
  end.

(** The schedule that lets the body run first and the producer during
    [join]. *)
Definition late_producer (c : scenario) : list actor :=
  replicate (4 + body_steps c) Main
  ++ replicate (S (length (chunks c))) Producer
  ++ replicate 3 Main.

(** *** What holds in every state of every run *)

Definition is_finished (t : thread) : Prop :=
  match t with Finished _ => True | _ => False end.

(** The files and the producer, by the place of the main thread. *)
Definition inv (c : scenario) (files0 : fs) (s : state) : Prop :=
  let d := tmpdir c in
  let inside := <[d := {[fifo_name]}]> files0 in
  match main s with
  | Construct => files s = files0 ∧ producer s = NotStarted
  | MakeFifo d' => d' = d ∧ files s = <[d := ∅]> files0 ∧ producer s = NotStarted
  | Enter d' => d' = d ∧ files s = inside ∧ producer s = NotStarted
  | Body d' _ => d' = d ∧ files s = inside ∧ producer s ≠ NotStarted
  | Join d' r =>
    d' = d ∧ files s = inside ∧ producer s ≠ NotStarted ∧ r = body_end c
  | Unlink d' r =>
    d' = d ∧ files s = inside ∧ is_finished (producer s) ∧ r = body_end c
  | Rmdir d' r =>
    d' = d ∧ files s = <[d := ∅]> files0 ∧ is_finished (producer s)
    ∧ r = body_end c
  | Left r => files s = files0 ∧ is_finished (producer s) ∧ r = body_end c
  | Failed _ => False
  end.

(** The fifo holds what the producer wrote so far. *)
Definition written (c : scenario) (s : state) : Prop :=
  match producer s with
  | NotStarted => channel s = []
  | Running todo => channel s ++ todo = chunks c
  | Finished o => channel s = chunks c ∧ o = producer_raises c
  end.

(** Inside the [with] statement: from the first step of the body until
    [__exit__] is about to remove the fifo. *)
Definition in_scope (p : pc) : Prop :=
  match p with
  | Body _ _ | Join _ _ | Unlink _ _ => True
  | _ => False
  end.

(** [join] has returned: [__exit__] is at, or past, the removal. *)
Definition past_join (p : pc) : Prop :=
  match p with
  | Unlink _ _ | Rmdir _ _ | Left _ => True
  | _ => False
  end.

(** A run in which the producer raises [ValueError] after two chunks,
    the threads alternate, and the body ends with [sys.exit(0)]. *)
Definition raising_run : scenario :=
  mkScenario "/tmp/tmpk3v9" [u "one"; u "two"] (Some ValueError) 2 (Some (Exit 0)).

Definition alternating : list actor :=
  [Main; Main; Main; Producer; Main; Producer; Main; Main; Producer; Main; Main; Main].

Definition raising_run_end : state :=
  mkState ∅ [u "one"; u "two"] (Finished (Some ValueError)) (Left (Some (Exit 0))).

(** The source of three records whose second has no contents, streamed
    with the tab as separator: what the producer of [csv_collection]
    does with it, as a run of the generator. *)
Definition truncated_run (body_end : option exc) : scenario :=
  let p := _generator [9%N] 22
             (List.map (record_line [9%N])
                       [(u "d1", u "alpha"); (u "d2", []); (u "d3", u "gamma")]) in
  mkScenario "/tmp/tmpk3v9" [out p] (failure p) 1 body_end.

(** A second call of [__exit__] on a generator whose [with] statement was
    left in the state [s], up to the removal of the fifo: [join], then
    [unlink]. *)
Definition exit_again (c : scenario) (s : state) : option state :=
  exec c [Main; Main]
       (mkState (files s) (channel s) (producer s) (Join (tmpdir c) None)).


End StreamGenerator.

(** ** [IndexCollection.execute.run]: the supervisor in the scope of the
    generator

    [run] is [with generator as yo:] around the supervisor. Whatever ends
    the body, [sys.exit] included, goes through [__exit__] of the
    generator before it leaves [run]. *)
Module IndexCollection.
Import Supervisor StreamGenerator.

(** The object [generator]: the [nullcontext] of a TREC collection, or
    the [StreamGenerator] of a csv collection, with the directory of its
    fifo and whether its thread comes to an end. That is up to the reader
    of the fifo: the thread waits in [open] until the fifo has a reader,
    and ends once the producer has returned or raised. *)
Inductive manager : Type :=
| Null
| Stream (d : string) (thread_ends : bool).

(** How [__exit__] ends: it returns, with the files it leaves; it raises;
    or [join] waits for ever. *)
Inductive exit_end : Type :=
| Returns (files : fs)
| Raises (e : os_error)
| Waits.

(** [__exit__], on the files [files]: lines 63 to 66 for a
    [StreamGenerator]; [nullcontext] does nothing. *)
Definition __exit__ (g : manager) (files : fs) : exit_end :=
  match g with
  | Null => Returns files
  | Stream d thread_ends =>
    if thread_ends then                           (* [self.join()] *)
      match unlink d fifo_name files with         (* [self.filepath.unlink()] *)
      | inl e => Raises e
      | inr files1 =>
        match rmdir d files1 with                 (* [self.filepath.parent.rmdir()] *)
        | inl e => Raises e
        | inr files2 => Returns files2
        end
      end
    else Waits
  end.

(** How [run] ends: with the exception that leaves it, or never. *)
Inductive run_end : Type :=
| Ends (e : exc)
| Hangs.

(** [run], for a child that writes [stdout] and ends with [returncode],
    and the files [files] at the end of the body: what is sent out, and
    how [run] ends. [__exit__] returns nothing, so that the exception of
    the body goes on; an exception of [__exit__] takes its place. *)
Definition run (g : manager) (files : fs) (stdout : list bytes) (returncode : Z)
  : list event * run_end :=
  let r := supervise stdout returncode in
  (r.1,
   match __exit__ g files with
   | Returns _ =>
     match r.2 with
     | SystemExit code => Ends (Exit code)
     | Uncaught e => Ends (Error e)
     end
   | Raises e => Ends (OsError e)
   | Waits => Hangs
   end).


End IndexCollection.

(** ** The dispatcher: [xpmir.utils.Handler] *)
Module Dispatcher.

Inductive dispatch_error (T : Type) : Type :=
| DuplicateHandler (t : T)
| UnsupportedVariant (t : T).
Arguments DuplicateHandler {T} t.
Arguments UnsupportedVariant {T} t.

Section Handler.
Context {T V R : Type} `{Countable T}.

(** The concrete type of a value: [key.__class__]. *)
Variable type_of : V → T.

(** Modelled from the spec: the class [Handler] of [xpmir.utils] is not
    among the sources. [register] adds a handler for a type descriptor;
    a second handler for the same type is an error. *)
Definition register (t : T) (h : V → R) (d : gmap T (V → R))
  : dispatch_error T + gmap T (V → R) :=
  match d !! t with
  | Some _ => inl (DuplicateHandler t)
  | None => inr (<[t := h]> d)
  end.

(** Modelled from the spec: the registrations made at setup time, in
    order, from the first error on nothing more is registered. *)
Fixpoint register_all (hs : list (T * (V → R))) (d : gmap T (V → R))
  : dispatch_error T + gmap T (V → R) :=
  match hs with
  | [] => inr d
  | (t, h) :: hs' =>
    match register t h d with
    | inr d' => register_all hs' d'
    | inl e => inl e
    end
  end.

(** Modelled from the spec: [dispatch] looks up the handler of the exact
    concrete type of the value and calls it with the value; without a
    handler it fails with [UnsupportedVariant] of that type. *)
Definition dispatch (d : gmap T (V → R)) (v : V) : dispatch_error T + R :=
  match d !! type_of v with
  | Some h => inr (h v)
  | None => inl (UnsupportedVariant (type_of v))
  end.

End Handler.

(** *** The dispatcher of [IndexCollection.execute] *)

(** A document collection: its class, its path, its separator. *)
Record documents : Type := mkDocuments {
  doc_class : string;
  doc_path : string;
  doc_separator : str
}.

(** What a handler of [chandler] returns: the context manager and the
    arguments of the command. *)
Inductive context : Type :=
| NullContext                                   (* [contextlib.nullcontext] *)
| Generator (path : string) (separator : str).  (* [StreamGenerator(_generator)] *)

Definition trec_collection (docs : documents) : context * list string :=
  (NullContext,
   ["-collection"; "TrecCollection"; "-input"; doc_path docs]).

(** [tmpdir] is the directory the generator made for its fifo. *)
Definition csv_collection (tmpdir : string) (docs : documents)
  : context * list string :=
  (Generator (doc_path docs) (doc_separator docs),
   ["-collection"; "JsonCollection"; "-input"; tmpdir]).

Definition chandler (tmpdir : string)
  : list (string * (documents → context * list string)) :=
  [("datamaestro_text.data.ir.trec.TipsterCollection", trec_collection);
   ("datamaestro_text.data.ir.csv.AdhocDocuments", csv_collection tmpdir)].

Definition robust : documents :=
  mkDocuments "datamaestro_text.data.ir.trec.TipsterCollection"
              "/data/robust04" [].

Definition unknown_collection : documents :=
  mkDocuments "datamaestro_text.data.ir.trec.AdhocDocuments" "/data/other" [].

Definition registry (tmpdir : string)
  : gmap string (documents → context * list string) :=
  <["datamaestro_text.data.ir.csv.AdhocDocuments" := csv_collection tmpdir]>
    (<["datamaestro_text.data.ir.trec.TipsterCollection" := trec_collection]> ∅).

End Dispatcher.

(** ** The folds of Robust 2004: [src/xpmir/datasets/robust.py]

    A Python [dict] from fold names to sets of topic identifiers is a
    [gmap] from strings to [gset]s; a missing key is [None]. *)
Module Robust.

(** The sets of the literal [FOLDS], in the order of the source. *)
Definition f1 : list string :=
  ["302"; "303"; "309"; "316"; "317"; "319"; "323"; "331"; "336"; "341";
   "356"; "357"; "370"; "373"; "378"; "381"; "383"; "392"; "394"; "406";
   "410"; "411"; "414"; "426"; "428"; "433"; "447"; "448"; "601"; "607";
   "608"; "612"; "617"; "619"; "635"; "641"; "642"; "646"; "647"; "654";
   "656"; "662"; "665"; "669"; "670"; "679"; "684"; "690"; "692"; "700"].

Definition f2 : list string :=
  ["301"; "308"; "312"; "322"; "327"; "328"; "338"; "343"; "348"; "349";
   "352"; "360"; "364"; "365"; "369"; "371"; "374"; "386"; "390"; "397";
   "403"; "419"; "422"; "423"; "424"; "432"; "434"; "440"; "446"; "602";
   "604"; "611"; "623"; "624"; "627"; "632"; "638"; "643"; "651"; "652";
   "663"; "674"; "675"; "678"; "680"; "683"; "688"; "689"; "695"; "698"].

Definition f3 : list string :=
  ["306"; "307"; "313"; "321"; "324"; "326"; "334"; "347"; "351"; "354";
   "358"; "361"; "362"; "363"; "376"; "380"; "382"; "396"; "404"; "413";
   "415"; "417"; "427"; "436"; "437"; "439"; "444"; "445"; "449"; "450";
   "603"; "605"; "606"; "614"; "620"; "622"; "626"; "628"; "631"; "637";
   "644"; "648"; "661"; "664"; "666"; "671"; "677"; "685"; "687"; "693"].

Definition f4 : list string :=
  ["320"; "325"; "330"; "332"; "335"; "337"; "342"; "344"; "350"; "355";
   "368"; "377"; "379"; "387"; "393"; "398"; "402"; "405"; "407"; "408";
   "412"; "420"; "421"; "425"; "430"; "431"; "435"; "438"; "616"; "618";
   "625"; "630"; "633"; "636"; "639"; "649"; "650"; "653"; "655"; "657";
   "659"; "667"; "668"; "672"; "673"; "676"; "682"; "686"; "691"; "697"].

Definition f5 : list string :=
  ["304"; "305"; "310"; "311"; "314"; "315"; "318"; "329"; "333"; "339";
   "340"; "345"; "346"; "353"; "359"; "366"; "367"; "372"; "375"; "384";
   "385"; "388"; "389"; "391"; "395"; "399"; "400"; "401"; "409"; "416";
   "418"; "429"; "441"; "442"; "443"; "609"; "610"; "613"; "615"; "621";
   "629"; "634"; "640"; "645"; "658"; "660"; "681"; "694"; "696"; "699"].


(** The dictionary [FOLDS] as the literal gives it. *)
Definition FOLDS_literal : gmap string (gset string) :=
  list_to_map [("f1", list_to_set f1); ("f2", list_to_set f2);
               ("f3", list_to_set f3); ("f4", list_to_set f4);
               ("f5", list_to_set f5)].

(** [sorted] on strings: a stable merge sort by the order of the
    characters. *)
Definition str_le (x y : string) : Prop := String.leb x y = true.

#[export] Instance str_le_dec : RelDecision str_le.
Proof. intros x y. unfold str_le. apply _. Defined.

Definition sorted (l : list string) : list string := merge_sort str_le l.

(** [l[i]], where a negative [i] counts from the end. *)
Definition index {A} (l : list A) (i : Z) : option A :=
  if 0 <=? i then l !! Z.to_nat i
  else if 0 <=? Z.of_nat (length l) + i then l !! Z.to_nat (Z.of_nat (length l) + i)
  else None.

(** [set.union] of the sets: the union of the first set with the others; a
    [TypeError] without a first set. *)
Definition union_all (sets : list (gset string)) : option (gset string) :=
  match sets with
  | [] => None
  | s :: rest => Some (s ∪ ⋃ rest)
  end.

(** The body of the [for] loop, for the index [i]. *)
Definition add_fold (all : gset string) (ids : list string)
    (folds : gmap string (gset string)) (i : nat)
  : option (gmap string (gset string)) :=
  id ← ids !! i;
  prev ← index ids (Z.of_nat i - 1);
  current ← folds !! id;
  before ← folds !! prev;
  let folds1 := <["tr" +:+ id := all ∖ current ∖ before]> folds in
  before' ← folds1 !! prev;
  Some (<["va" +:+ id := before']> folds1).

Fixpoint add_folds (all : gset string) (ids : list string) (range : list nat)
    (folds : gmap string (gset string)) : option (gmap string (gset string)) :=
  match range with
  | [] => Some folds
  | i :: range' =>
    match add_fold all ids folds i with
    | Some folds' => add_folds all ids range' folds'
    | None => None
    end
  end.

(** The names of the folds, sorted: [_FOLD_IDS]. *)
Definition fold_ids (folds : gmap string (gset string)) : list string :=
  sorted (map_to_list folds).*1.

(** The statements that follow the literal: [_ALL], [_FOLD_IDS], the
    loop over [range(len(FOLDS))] and the fold [all]. [None] is an
    exception. *)
Definition derive (folds : gmap string (gset string))
  : option (gmap string (gset string)) :=
  all ← union_all (map_to_list folds).*2;
  folds' ← add_folds all (fold_ids folds) (seq 0 (size folds)) folds;
  Some (<["all" := all]> folds').

(** [FOLDS] once the module is loaded. *)
Definition FOLDS : option (gmap string (gset string)) := derive FOLDS_literal.

(** The identifiers that [fold(name)] gives to the topics and to the
    assessments: [sorted(list(FOLDS[name]))]; [None] is the [KeyError]. *)
Definition fold (folds : gmap string (gset string)) (name : string)
  : option (list string) :=
  topics ← folds !! name;
  Some (sorted (elements topics)).

(** Does [k] start with the two characters [a] and [b]? *)
Definition starts_with2 (a b : ascii) (k : string) : bool :=
  match k with
  | String c1 (String c2 _) => Ascii.eqb c1 a && Ascii.eqb c2 b
  | _ => false
  end.

(** A fold name that the loop does not write to: it does not start with
    [tr] or [va] and is not [all]. *)
Definition plain_name (k : string) : bool :=
  negb (starts_with2 "t" "r" k) && negb (starts_with2 "v" "a" k)
  && negb (String.eqb k "all").

(** The dictionary [D] still holds the folds of the literal [folds]. *)
Definition agrees (folds D : gmap string (gset string)) : Prop :=
  ∀ k, plain_name k = true → D !! k = folds !! k.

(** The two entries that the loop writes for the index [i]. *)
Definition entries (folds : gmap string (gset string)) (all : gset string)
    (ids : list string) (D : gmap string (gset string)) (i : nat) : Prop :=
  ∀ id prev te va,
    ids !! i = Some id → index ids (Z.of_nat i - 1) = Some prev →
    folds !! id = Some te → folds !! prev = Some va →
    D !! ("tr" +:+ id) = Some (all ∖ te ∖ va) ∧ D !! ("va" +:+ id) = Some va.

(** A key that the loop does not write for the indices of [range]. *)
Definition untouched (ids : list string) (range : list nat) (key : string) : Prop :=
  ∀ i id, i ∈ range → ids !! i = Some id →
          key ≠ "tr" +:+ id ∧ key ≠ "va" +:+ id.

End Robust.

(** ** Saving a scorer: [InteractionScorer.save]

    The state dictionary maps names to tensors; of a tensor only the
    flag [requires_grad] and the contents matter here. *)
Module InteractionScorer.

Record tensor (T : Type) : Type := mkTensor {
  requires_grad : bool;
  data : T
}.
Arguments mkTensor {T} _ _.
Arguments requires_grad {T} _.
Arguments data {T} _.

(** [t.data]: the contents, outside the gradient graph. *)
Definition detach {T} (t : tensor T) : tensor T :=
  mkTensor false (data t).

(** The body of the loop for one key; [None] is the [KeyError] of
    [state[key]]. *)
Definition save_step {T} (state : gmap string (tensor T)) (key : string)
  : option (gmap string (tensor T)) :=
  t ← state !! key;
  if requires_grad t then Some (<[key := detach t]> state)
  else Some (delete key state).

(** The loop over [list(state)], a copy of the keys taken before the
    loop changes the dictionary. *)
Fixpoint save_loop {T} (keys : list string) (state : gmap string (tensor T))
  : option (gmap string (tensor T)) :=
  match keys with
  | [] => Some state
  | key :: keys' =>
    match save_step state key with
    | Some state' => save_loop keys' state'
    | None => None
    end
  end.

(** What [save] hands to [torch.save]. *)
Definition save {T} (state : gmap string (tensor T))
  : option (gmap string (tensor T)) :=
  save_loop (map_to_list state).*1 state.

(** What is kept of a tensor. *)
Definition kept {T} (t : tensor T) : option (tensor T) :=
  if requires_grad t then Some (detach t) else None.

End InteractionScorer.

(** ** The evaluation task: [TrecEval] of
    [src/experimaestro_ir/evaluation.py]

    The result of the evaluator is a dictionary from query identifiers
    to dictionaries from measure names to values; the outer one is kept
    as the list of its items, in the order of [results.values()]. The
    values are not looked into, and a printed line is kept as its
    measure, its scope and its value. *)
Module TrecEval.
Import Robust.

Inductive error : Type :=
| UnboundLocalError
| KeyError (key : string).

Inductive line (V : Type) : Type :=
| Line (measure scope : string) (value : V).
Arguments Line {V} _ _ _.

(** The order of [sorted] on items whose keys differ: the order of the
    keys. *)
Definition by_key {A} (x y : string * A) : Prop := str_le x.1 y.1.

#[export] Instance by_key_dec {A} : RelDecision (@by_key A).
Proof. intros x y. unfold by_key. apply _. Defined.

(** [sorted(d.items())] *)
Definition sorted_items {A} (items : list (string * A)) : list (string * A) :=
  merge_sort by_key items.

Section Eval.
Context {V : Type}.

(** [pytrec_eval.compute_aggregated_measure] *)
Variable aggregate : string → list V → V.

(** The first loop: a line for each measure of each query, the queries
    and the measures of a query in sorted order. *)
Definition query_lines (results : list (string * gmap string V)) : list (line V) :=
  List.flat_map
    (fun q => List.map (fun m => Line m.1 q.1 m.2) (sorted_items (map_to_list q.2)))
    (sorted_items results).

(** The variable [query_measures] after the first loop: the measures of
    the last query, if there was one. *)
Definition last_measures (results : list (string * gmap string V))
  : option (gmap string V) :=
  snd <$> last (sorted_items results).

(** [[query_measures[measure] for query_measures in results.values()]];
    the error is the [KeyError] of a query without the measure. *)
Fixpoint values_of (measure : string) (results : list (string * gmap string V))
  : error + list V :=
  match results with
  | [] => inr []
  | q :: rest =>
    match q.2 !! measure with
    | None => inl (KeyError measure)
    | Some v =>
      match values_of measure rest with
      | inr vs => inr (v :: vs)
      | inl e => inl e
      end
    end
  end.

(** The second loop, over the sorted names [measures]: the lines
    printed, and the error that stopped it, if one did. *)
Fixpoint all_lines (results : list (string * gmap string V))
    (measures : list string) : list (line V) * option error :=
  match measures with
  | [] => ([], None)
  | m :: rest =>
    match values_of m results with
    | inl e => ([], Some e)
    | inr vs =>
      let r := all_lines results rest in
      (Line m "all" (aggregate m vs) :: r.1, r.2)
    end
  end.

(** What the task prints from [results], and the error that ends it, if
    one does. *)
Definition TrecEval (results : list (string * gmap string V))
  : list (line V) * option error :=
  match last_measures results with
  | None => (query_lines results, Some UnboundLocalError)
  | Some query_measures =>
    let r := all_lines results (sorted (map_to_list query_measures).*1) in
    (query_lines results ++ r.1, r.2)
  end.

End Eval.

Definition scope_of {V} (l : line V) : string :=
  match l with Line _ scope _ => scope end.

Definition measure_of {V} (l : line V) : string :=
  match l with Line measure _ _ => measure end.

End TrecEval.

(** * Proofs *)

(** ** The matcher *)
Module RegexFacts.
Import Regex.

Lemma strip_prefix_bytes (p s r : bytes) :
  strip_prefix Byte.eqb p s = Some r ↔ s = p ++ r.
Proof.
  revert s. induction p as [|x p IH]; intros s; simpl.
  - split; congruence.
  - destruct s as [|y s]; [done|].
    destruct (Byte.eqb x y) eqn:E.
    + apply Byte.byte_dec_bl in E as ->. rewrite IH. split; congruence.
    + split; [done|]. intros [= -> _].
      by rewrite (Byte.byte_dec_lb eq_refl) in E.
Qed.

Lemma star_rests_sound p s rest :
  rest ∈ star_rests p s → ∃ w, s = w ++ rest ∧ Forall (fun c => p c = true) w.
Proof.
  revert rest. induction s as [|c s IH]; intros rest; simpl.
  - intros ->%list_elem_of_singleton. by exists [].
  - destruct (p c) eqn:Hc.
    + rewrite elem_of_app, list_elem_of_singleton. intros [Hin| ->].
      * destruct (IH _ Hin) as (w & -> & Hw).
        exists (c :: w). split; [done|]. by constructor.
      * by exists [].
    + intros ->%list_elem_of_singleton. by exists [].
Qed.

Lemma star_rests_complete p w rest :
  Forall (fun c => p c = true) w → rest ∈ star_rests p (w ++ rest).
Proof.
  induction 1 as [|c w Hc _ IH]; simpl.
  - destruct rest as [|c rest]; simpl; [by left|].
    destruct (p c); [apply elem_of_app; right|]; by left.
  - rewrite Hc. apply elem_of_app. by left.
Qed.

(** [exec] finds exactly the ways to cut the subject that [capture]
    allows. *)
Lemma exec_capture r : ∀ g s g' rest,
  (g', rest) ∈ exec r (g, s) ↔ ∃ w, s = w ++ rest ∧ capture r w g g'.
Proof.
  induction r as [bs|p|p|p|r1 IH1 r2 IH2|r IH]; intros g s g' rest;
    cbn [exec capture fst snd].
  - destruct (strip_prefix Byte.eqb bs s) as [r|] eqn:E.
    + apply strip_prefix_bytes in E as ->.
      rewrite list_elem_of_singleton. split.
      * intros [= -> ->]. by exists bs.
      * intros (w & Heq & -> & ->). by apply app_inv_head in Heq as ->.
    + split; [by intros ?%elem_of_nil|].
      intros (w & -> & -> & _).
      assert (strip_prefix Byte.eqb bs (bs ++ rest) = Some rest) as E'
        by by apply strip_prefix_bytes.
      congruence.
  - destruct s as [|c s]; [|destruct (p c) eqn:Hc].
    + split; [by intros ?%elem_of_nil|].
      intros (w & Heq & (c & -> & _) & _). done.
    + rewrite list_elem_of_singleton. split.
      * intros [= -> ->]. exists [c]. eauto.
      * intros (w & Heq & (c' & -> & _) & ->). by injection Heq as -> ->.
    + split; [by intros ?%elem_of_nil|].
      intros (w & Heq & (c' & -> & Hc') & _). injection Heq as -> _. congruence.
  - rewrite list_elem_of_In, in_map_iff. split.
    + intros (x & [= <- <-] & Hx%list_elem_of_In).
      apply star_rests_sound in Hx as (w & -> & Hw). eauto.
    + intros (w & -> & Hw & ->). exists rest. split; [done|].
      by apply list_elem_of_In, star_rests_complete.
  - rewrite list_elem_of_In, in_map_iff. split.
    + intros (x & [= <- <-] & Hx%list_elem_of_In).
      destruct s as [|c s]; simpl in Hx; [by apply elem_of_nil in Hx|].
      destruct (p c) eqn:Hc; [|by apply elem_of_nil in Hx].
      apply star_rests_sound in Hx as (w & -> & Hw).
      exists (c :: w). repeat split; [done|by constructor].
    + intros (w & -> & [Hne Hw] & ->). exists rest. split; [done|].
      apply list_elem_of_In. destruct Hw as [|c w Hc Hw]; [done|].
      simpl. rewrite Hc. by apply star_rests_complete.
  - rewrite list_elem_of_In, in_flat_map. split.
    + intros ([g1 s1] & H1%list_elem_of_In%IH1 & H2%list_elem_of_In%IH2).
      destruct H1 as (w1 & -> & H1). destruct H2 as (w2 & -> & H2).
      exists (w1 ++ w2). split; [by rewrite app_assoc|]. eauto 10.
    + intros (w & -> & w1 & w2 & g1 & -> & H1 & H2).
      exists (g1, w2 ++ rest). split; apply list_elem_of_In.
      * apply IH1. exists w1. split; [by rewrite app_assoc|done].
      * apply IH2. eauto.
  - rewrite list_elem_of_In, in_map_iff. split.
    + intros ([g0 s0] & [= <- <-] & (w & -> & Hw)%list_elem_of_In%IH).
      exists w. split; [done|]. split; [eauto|]. f_equal. simpl.
      rewrite length_app.
      replace (length w + length s0 - length s0)%nat with (length w) by lia.
      by rewrite take_app_length.
    + intros (w & -> & [[g0 Hw] ->]). exists (g0, rest). split.
      * simpl. f_equal. f_equal. rewrite length_app.
        replace (length w + length rest - length rest)%nat with (length w) by lia.
        by rewrite take_app_length.
      * apply list_elem_of_In, IH. eauto.
Qed.

(** [re.match] succeeds exactly when some prefix of the subject is a
    text of the pattern. *)
Lemma matches_capture r data :
  matches r data = true ↔ ∃ w rest g', data = w ++ rest ∧ capture r w None g'.
Proof.
  unfold matches, re_match. rewrite bool_decide_eq_true. split.
  - intros [g Hg]. destruct (exec r (None, data)) as [|[g' rest] l] eqn:E; [done|].
    assert ((g', rest) ∈ exec r (None, data)) as Hin by (rewrite E; left).
    apply exec_capture in Hin as (w & -> & Hw). eauto.
  - intros (w & rest & g' & -> & Hw).
    assert ((g', rest) ∈ exec r (None, w ++ rest)) as Hin
      by (apply exec_capture; eauto).
    destruct (exec r (None, w ++ rest)); [by apply elem_of_nil in Hin|].
    by eexists.
Qed.

(** The group that [re.match] reports comes from a cut of the subject. *)
Lemma re_match_capture r data g :
  re_match r data = Some g → ∃ w rest, data = w ++ rest ∧ capture r w None g.
Proof.
  unfold re_match.
  destruct (exec r (None, data)) as [|[g' rest] l] eqn:E; [done|].
  intros [= <-].
  assert ((g', rest) ∈ exec r (None, data)) as Hin by (rewrite E; left).
  apply exec_capture in Hin as (w & -> & Hw). eauto.
Qed.

End RegexFacts.

(** ** The process supervisor *)
Module SupervisorFacts.
Import Regex Supervisor.

(** *** Facts about the matcher *)

Lemma star_rests_spec p s rest :
  rest ∈ star_rests p s → ∃ pre, s = pre ++ rest ∧ Forall (fun c => p c = true) pre.
Proof.
  revert rest. induction s as [|c s IH]; intros rest; simpl.
  - intros ->%list_elem_of_singleton. by exists [].
  - destruct (p c) eqn:Hc.
    + rewrite elem_of_app, list_elem_of_singleton. intros [Hin| ->].
      * destruct (IH _ Hin) as (pre & -> & Hpre).
        exists (c :: pre). split; [done|]. by constructor.
      * by exists [].
    + intros ->%list_elem_of_singleton. by exists [].
Qed.

Lemma plus_rests_spec p s rest :
  rest ∈ plus_rests p s →
  ∃ pre, s = pre ++ rest ∧ pre ≠ [] ∧ Forall (fun c => p c = true) pre.
Proof.
  destruct s as [|c s]; simpl; [by intros ?%elem_of_nil|].
  destruct (p c) eqn:Hc; [|by intros ?%elem_of_nil].
  intros (pre & -> & Hpre)%star_rests_spec.
  exists (c :: pre). split; [done|]. split; [done|]. by constructor.
Qed.

Lemma exec_no_group r : no_group r → ∀ st st', st' ∈ exec r st → st'.1 = st.1.
Proof.
  induction r as [bs|p|p|p|r1 IH1 r2 IH2|r IH]; simpl; intros Hng st st'.
  - destruct (strip_prefix _ _ _); [|by intros ?%elem_of_nil].
    by intros ->%list_elem_of_singleton.
  - destruct (st.2) as [|c rest]; [by intros ?%elem_of_nil|].
    destruct (p c); [|by intros ?%elem_of_nil].
    by intros ->%list_elem_of_singleton.
  - rewrite list_elem_of_In, in_map_iff. by intros (? & <- & _).
  - rewrite list_elem_of_In, in_map_iff. by intros (? & <- & _).
  - destruct Hng as [H1 H2].
    rewrite list_elem_of_In, in_flat_map.
    intros (mid & Hmid%list_elem_of_In & Hst'%list_elem_of_In).
    rewrite (IH2 H2 _ _ Hst'). by apply IH1.
  - done.
Qed.

Lemma exec_group_plus p st st' :
  st' ∈ exec (Group (Plus p)) st →
  ∃ text, st'.1 = Some text ∧ text ≠ [] ∧ Forall (fun c => p c = true) text.
Proof.
  simpl. rewrite list_elem_of_In, in_map_iff.
  intros (mid & <- & Hmid). apply in_map_iff in Hmid as (rest & <- & Hrest).
  apply list_elem_of_In, plus_rests_spec in Hrest as (pre & Heq & Hne & Hpre).
  exists pre. split; [|done]. simpl. f_equal.
  rewrite Heq, length_app.
  replace (length pre + length rest - length rest)%nat with (length pre) by lia.
  by rewrite take_app_length.
Qed.

Lemma elem_of_exec_Cat r1 r2 st st' :
  st' ∈ exec (Cat r1 r2) st → ∃ mid, mid ∈ exec r1 st ∧ st' ∈ exec r2 mid.
Proof.
  simpl. rewrite list_elem_of_In, in_flat_map.
  intros (mid & ?%list_elem_of_In & ?%list_elem_of_In). eauto.
Qed.

Lemma re_match_elem_of r data g :
  re_match r data = Some g → ∃ rest, (g, rest) ∈ exec r (None, data).
Proof.
  unfold re_match. destruct (exec r (None, data)) as [|[g' rest] l] eqn:E; [done|].
  intros [= <-]. exists rest. simpl. left.
Qed.

(** Group 1 of a match of [RE_FILES] is a non-empty text of ASCII digits
    and commas. *)
Lemma RE_FILES_group data g :
  re_match RE_FILES data = Some g →
  ∃ text, g = Some text ∧ text ≠ [] ∧
          Forall (fun c => digit_or_comma c = true) text.
Proof.
  intros (rest & H)%re_match_elem_of.
  unfold RE_FILES in H. cbn [cat] in H.
  do 6 (apply elem_of_exec_Cat in H as (? & _ & H)).
  apply elem_of_exec_Cat in H as (mid & Hg & H).
  apply exec_no_group in H; [|done]. simpl in H.
  apply exec_group_plus in Hg as (text & Hg & ?). exists text.
  split; [congruence|done].
Qed.

Lemma decode_ascii bs :
  Forall (fun c => byte_in 0x00 0x7F c = true) bs →
  Utf8.decode bs = Some (List.map Byte.to_N bs).
Proof.
  induction 1 as [|c bs Hc _ IH]; [done|].
  cbn [Utf8.decode List.map]. by rewrite Hc, IH.
Qed.

Lemma digit_or_comma_ascii c : digit_or_comma c = true → byte_in 0x00 0x7F c = true.
Proof. by destruct c. Qed.

Lemma digit_or_comma_cases c :
  digit_or_comma c = true →
  Byte.to_N c = 44%N ∨ (48 <= Byte.to_N c <= 57)%N.
Proof. destruct c; try discriminate; intros _; cbv; intuition congruence. Qed.

Lemma int_digits_nonneg s :
  Forall (fun c => 48 <= c <= 57)%N s →
  ∀ acc, 0 <= acc → ∃ n, int_digits acc s = Some n ∧ 0 <= n.
Proof.
  induction 1 as [|c s Hc _ IH]; intros acc Hacc; simpl; [eauto|].
  destruct (N.leb_spec 48 c); [|lia]. destruct (N.leb_spec c 57); [|lia].
  simpl. apply IH. lia.
Qed.

Lemma remove_commas_digits (text : bytes) :
  Forall (fun c => digit_or_comma c = true) text →
  Forall (fun c => 48 <= c <= 57)%N (remove_commas (List.map Byte.to_N text)).
Proof.
  induction 1 as [|c text Hc _ IH]; simpl; [constructor|].
  apply digit_or_comma_cases in Hc as [->|Hc]; simpl; [done|].
  destruct (N.eqb_spec (Byte.to_N c) 44); simpl; [lia|]. by constructor.
Qed.

(** On a match of [RE_FILES] the conversion gives a count that is not
    negative, or fails with [ValueError] (a group of commas only). *)
Lemma group_value_files data g :
  re_match RE_FILES data = Some g →
  (∃ n, group_value g = Ok n ∧ 0 <= n) ∨ group_value g = Raise ValueError.
Proof.
  intros (text & -> & _ & Htext)%RE_FILES_group. unfold group_value.
  rewrite decode_ascii
    by (eapply Forall_impl; [done|]; apply digit_or_comma_ascii).
  pose proof (remove_commas_digits _ Htext) as Hd.
  unfold int. destruct (remove_commas _) as [|c s] eqn:E; [by right|].
  destruct (int_digits_nonneg _ Hd 0 ltac:(lia)) as (n & -> & ?). eauto.
Qed.

Lemma matches_false r data : matches r data = false ↔ re_match r data = None.
Proof.
  unfold matches. rewrite bool_decide_eq_false, <-eq_None_not_Some. done.
Qed.

Lemma matches_true r data : matches r data = true ↔ is_Some (re_match r data).
Proof. unfold matches. by rewrite bool_decide_eq_true. Qed.

(** *** One line *)

Lemma process_line_complete st data st' evs :
  process_line st data = Ok (st', evs) →
  complete st' = complete st || matches RE_COMPLETE data.
Proof.
  unfold process_line.
  repeat case_match; intros; simplify_eq; done.
Qed.

Lemma process_line_indexedfiles st data st' evs :
  process_line st data = Ok (st', evs) →
  indexedfiles st' = indexedfiles st ∨ indexedfiles st' = indexedfiles st + 1.
Proof.
  unfold process_line.
  repeat case_match; intros; simplify_eq; simpl; auto.
Qed.

Lemma process_line_nfiles st data st' evs :
  process_line st data = Ok (st', evs) →
  if matches RE_FILES data then 0 <= nfiles st' else nfiles st' = nfiles st.
Proof.
  unfold process_line. destruct (re_match RE_FILES data) as [g|] eqn:Hm.
  - assert (matches RE_FILES data = true) as -> by (apply matches_true; eauto).
    destruct (group_value_files _ _ Hm) as [(n & -> & ?)| ->]; [|done].
    by intros [= <- <-].
  - apply matches_false in Hm as ->.
    repeat case_match; intros; simplify_eq; done.
Qed.

(** *** The loop *)

Lemma last_cons {A} (a d : A) l : List.last (a :: l) d = List.last l a.
Proof.
  revert a d. induction l as [|x l IH]; intros a d; [done|].
  change (List.last (x :: l) d = List.last (x :: l) a). by rewrite !IH.
Qed.

Lemma final_state_cons' st st' d evs :
  final_state st (mkDrained (st' :: history d) evs (raised d)) = final_state st' d.
Proof. apply last_cons. Qed.

Lemma drain_cons st c data rest :
  drain st ((c :: data) :: rest) =
  match process_line st (c :: data) with
  | Ok (st', evs) =>
    let d := drain st' rest in
    mkDrained (st' :: history d) (evs ++ events d) (raised d)
  | Raise e => mkDrained [] [] (Some e)
  end.
Proof. done. Qed.

(** When the loop ends without an exception, [complete] tells whether one
    of the lines read matched [RE_COMPLETE]. *)
Lemma drain_complete stream : ∀ st,
  raised (drain st stream) = None →
  complete (final_state st (drain st stream))
  = complete st || existsb (matches RE_COMPLETE) (lines_read stream).
Proof.
  induction stream as [|data rest IH]; intros st; simpl.
  - by rewrite orb_false_r.
  - destruct data as [|c data]; [by rewrite orb_false_r|].
    destruct (process_line st (c :: data)) as [[st' evs]|e] eqn:Hp; [|done].
    cbn [raised lines_read existsb]. intros Hr.
    rewrite final_state_cons', IH by done.
    rewrite (process_line_complete _ _ _ _ Hp). by rewrite orb_assoc.
Qed.

Lemma drain_app pre post : ∀ st,
  Forall (fun l => l ≠ []) pre →
  raised (drain st pre) = None →
  drain st (pre ++ post) =
  let d := drain st pre in
  let d' := drain (final_state st d) post in
  mkDrained (history d ++ history d') (events d ++ events d') (raised d').
Proof.
  induction pre as [|data pre IH]; intros st Hne.
  - intros _. cbn. by destruct (drain st post).
  - apply Forall_cons in Hne as [Hd Hne].
    destruct data as [|c data]; [done|].
    rewrite <-app_comm_cons, !drain_cons.
    destruct (process_line st (c :: data)) as [[st' evs]|e]; [|done].
    cbn [raised history events]. intros Hr. rewrite IH by done.
    cbv zeta. cbn [raised history events].
    rewrite final_state_cons'. by rewrite app_assoc.
Qed.

(** Without a line matching [RE_FILES], [nfiles] keeps its value. *)
Lemma drain_nfiles stream : ∀ st,
  Forall (fun l => matches RE_FILES l = false) stream →
  nfiles (final_state st (drain st stream)) = nfiles st.
Proof.
  induction stream as [|data rest IH]; intros st Hall; [done|].
  apply Forall_cons in Hall as [Hd Hall].
  destruct data as [|c data]; [done|]. rewrite drain_cons.
  destruct (process_line st (c :: data)) as [[st' evs]|e] eqn:Hp; [|done].
  cbv zeta. rewrite final_state_cons', IH by done.
  apply process_line_nfiles in Hp. by rewrite Hd in Hp.
Qed.

(** The body of [with]: when the loop ends without an exception, the
    exit status is 1 if the child returned 0 and no line read matched
    [RE_COMPLETE], and the child's return code otherwise. *)
Lemma supervise_status (stdout : list bytes) (returncode : Z) :
  raised (drain initial_state stdout) = None →
  (supervise stdout returncode).2 =
  SystemExit (if (returncode =? 0)
                 && negb (existsb (matches RE_COMPLETE) (lines_read stdout))
              then 1 else returncode).
Proof.
  intros Hr. unfold supervise. rewrite Hr. cbn [snd].
  rewrite drain_complete by done. unfold resolve. cbn [complete initial_state orb].
  by destruct (_ && _).
Qed.


Lemma history_lower_bound stream : ∀ st,
  Forall (fun s => indexedfiles st <= indexedfiles s) (history (drain st stream)).
Proof.
  induction stream as [|data rest IH]; intros st; [constructor|].
  destruct data as [|c data]; [constructor|]. rewrite drain_cons.
  destruct (process_line st (c :: data)) as [[st' evs]|e] eqn:Hp; [|constructor].
  cbn [history]. apply process_line_indexedfiles in Hp. constructor; [lia|].
  eapply Forall_impl; [apply IH|]. simpl. lia.
Qed.

(** C4, as the code has it. Along the states the loop goes through,
    [indexedfiles] never decreases; the loop does not compare it with
    [nfiles]. *)
Theorem indexedfiles_monotone (stream : list bytes) (st : progress_state) :
  StronglySorted (fun s1 s2 => indexedfiles s1 <= indexedfiles s2)
                 (st :: history (drain st stream)).
Proof.
  revert st. induction stream as [|data rest IH]; intros st.
  - repeat constructor.
  - constructor; [|apply history_lower_bound].
    destruct data as [|c data]; [constructor|]. rewrite drain_cons.
    destruct (process_line st (c :: data)) as [[st' evs]|e]; [|constructor].
    apply IH.
Qed.

(** C4, as stated, fails: after a line announcing one file, two
    docs-added lines leave [indexedfiles] at 2, above [nfiles] at 1. *)
Lemma counter_exceeds_total :
  let d := drain initial_state
                 [files_found_line "1"; docs_added_line; docs_added_line] in
  raised d = None ∧
  final_state initial_state d
  = {| nfiles := 1; indexedfiles := 2; complete := false |} ∧
  events d = [Stdout (u "1 files to index" ++ [10%N]); Progress 1 1; Progress 2 1].
Proof. by vm_compute. Qed.

(** C5, as the code has it. A docs-added line read before any line
    matched [RE_FILES] is processed without an exception: the counter goes
    up by one and [progress] is called with the counter over the initial
    [nfiles], which is [-1]. *)
Theorem per_unit_before_total (pre : list bytes) (data : bytes) :
  Forall (fun l => l ≠ [] ∧ matches RE_FILES l = false) pre →
  raised (drain initial_state pre) = None →
  matches RE_FILES data = false →
  matches RE_FILE data = true →
  let d := drain initial_state pre in
  let d' := drain initial_state (pre ++ [data]) in
  let k := indexedfiles (final_state initial_state d) in
  raised d' = None ∧
  events d' = events d ++ [Progress (k + 1) (-1)] ∧
  indexedfiles (final_state initial_state d') = k + 1.
Proof.
  intros Hpre Hr Hfiles Hfile d d' k. subst d'.
  rewrite drain_app; [|by eapply Forall_impl; [done|]; intros ? []|done].
  fold d. cbv zeta.
  assert (nfiles (final_state initial_state d) = -1) as Hn.
  { apply (drain_nfiles pre initial_state).
    eapply Forall_impl; [done|]. by intros ? []. }
  destruct data as [|c data]; [done|]. rewrite drain_cons.
  unfold process_line. apply matches_false in Hfiles. rewrite Hfiles, Hfile, Hn.
  cbn [Z.eqb raised events history drain]. fold k.
  split; [done|]. split; [done|].
  unfold final_state. cbn [history]. by rewrite List.last_last.
Qed.

Lemma per_unit_before_total_witness :
  let pre := [other_line; docs_added_line] in
  Forall (fun l => l ≠ [] ∧ matches RE_FILES l = false) pre ∧
  raised (drain initial_state pre) = None ∧
  matches RE_FILES docs_added_line = false ∧
  matches RE_FILE docs_added_line = true ∧
  events (drain initial_state (pre ++ [docs_added_line]))
  = events (drain initial_state pre) ++ [Progress 2 (-1)].
Proof.
  assert (Forall (fun l => l ≠ [] ∧ matches RE_FILES l = false)
                 [other_line; docs_added_line]) as Hpre
    by (repeat constructor; by vm_compute).
  cbv zeta. split; [done|]. do 3 (split; [by vm_compute|]).
  apply (per_unit_before_total [other_line; docs_added_line] docs_added_line Hpre);
    by vm_compute.
Defined.

(** C5, as stated, fails: the first docs-added line, read when no total
    is known, makes the loop call [progress(1 / -1)]. *)
Lemma docs_added_first_reports_progress :
  matches RE_FILES docs_added_line = false ∧
  matches RE_FILE docs_added_line = true ∧
  process_line initial_state docs_added_line
  = Ok ({| nfiles := -1; indexedfiles := 1; complete := false |},
        [Progress 1 (-1)]).
Proof. by vm_compute. Qed.

(** C6, as the code has it. A line matching [RE_FILES] that carries the
    integer [n] sets [nfiles] to [n], which is not negative, and prints
    the count followed by [files to index] on standard output; it leaves
    the counter alone and calls [progress] not at all. *)
Theorem total_count_line (st : progress_state) (data : bytes) (n : Z) :
  carried_integer data = Some n →
  0 <= n ∧
  process_line st data
  = Ok ({| nfiles := n; indexedfiles := indexedfiles st;
           complete := complete st || matches RE_COMPLETE data |},
        [Stdout (decimal n ++ u " files to index" ++ [10%N])]).
Proof.
  unfold carried_integer, process_line.
  destruct (re_match RE_FILES data) as [g|] eqn:Hm; [|done].
  destruct (group_value_files _ _ Hm) as [(n' & -> & ?)| ->]; [|done].
  by intros [= <-].
Qed.

Lemma total_count_line_witness :
  carried_integer (files_found_line "1,234") = Some 1234 ∧
  process_line initial_state (files_found_line "1,234")
  = Ok ({| nfiles := 1234; indexedfiles := 0; complete := false |},
        [Stdout (u "1234 files to index" ++ [10%N])]).
Proof.
  split; [by vm_compute|].
  apply (total_count_line initial_state (files_found_line "1,234") 1234).
  by vm_compute.
Defined.

(** C6, as stated, fails: on a line announcing 100 files the loop sends
    one event, the printed count, and no progress report. *)
Lemma files_found_no_progress :
  carried_integer (files_found_line "100") = Some 100 ∧
  events (drain initial_state [files_found_line "100"])
  = [Stdout (u "100 files to index" ++ [10%N])] ∧
  Progress 0 100 ∉ events (drain initial_state [files_found_line "100"]).
Proof.
  split; [by vm_compute|]. split; [by vm_compute|].
  intros Hin. vm_compute in Hin.
  apply list_elem_of_singleton in Hin. discriminate.
Qed.

(** C7, as the code has it. For every line: [complete] is raised when
    the line matches [RE_COMPLETE], whatever else the line matches; then
    [RE_FILES] is tried first and [RE_FILE] second; a line matching
    [RE_FILES] prints the count it carries (or fails with [ValueError]
    when it carries commas only); a line matching [RE_FILE] only counts
    and reports; and exactly the lines matching neither of the two are
    decoded as UTF-8 and written to standard output unchanged, a line
    matching [RE_COMPLETE] included. *)
Theorem line_classification (st : progress_state) (data : bytes) :
  let complete' := complete st || matches RE_COMPLETE data in
  process_line st data =
  if matches RE_FILES data then
    match carried_integer data with
    | Some n =>
      Ok ({| nfiles := n; indexedfiles := indexedfiles st; complete := complete' |},
          [Stdout (decimal n ++ u " files to index" ++ [10%N])])
    | None => Raise ValueError
    end
  else if matches RE_FILE data then
    if nfiles st =? 0 then Raise ZeroDivisionError
    else Ok ({| nfiles := nfiles st; indexedfiles := indexedfiles st + 1;
                complete := complete' |},
             [Progress (indexedfiles st + 1) (nfiles st)])
  else
    match Utf8.decode data with
    | Some text =>
      Ok ({| nfiles := nfiles st; indexedfiles := indexedfiles st;
             complete := complete' |},
          [Stdout text])
    | None => Raise UnicodeDecodeError
    end.
Proof.
  intros complete'. unfold process_line, carried_integer. fold complete'.
  destruct (re_match RE_FILES data) as [g|] eqn:Hm.
  - assert (matches RE_FILES data = true) as -> by (apply matches_true; eauto).
    by destruct (group_value_files _ _ Hm) as [(n & -> & _)| ->].
  - by apply matches_false in Hm as ->.
Qed.

(** C7, as stated, fails: the completion line of the log matches
    [RE_COMPLETE] and is written to standard output all the same. *)
Lemma completion_line_echoed :
  matches RE_FILES complete_line = false ∧
  matches RE_FILE complete_line = false ∧
  matches RE_COMPLETE complete_line = true ∧
  Utf8.decode complete_line = Some (List.map Byte.to_N complete_line) ∧
  process_line initial_state complete_line
  = Ok ({| nfiles := -1; indexedfiles := 0; complete := true |},
        [Stdout (List.map Byte.to_N complete_line)]).
Proof. by vm_compute. Qed.

(** The first match does not hide the completion marker either: a line
    that matches both [RE_FILES] and [RE_COMPLETE] sets both [nfiles] and
    [complete]. *)
Example files_and_complete_both_apply :
  process_line initial_state
    (b "index.IndexCollection (IndexCollection.java:1) - 5 files found, Indexing Complete, 5 documents indexed")
  = Ok ({| nfiles := 5; indexedfiles := 0; complete := true |},
        [Stdout (u "5 files to index" ++ [10%N])]).
Proof. by vm_compute. Qed.

(** The scenarios of the specification. *)
Example full_log_exit_0 :
  (supervise (full_log 100) 0).2 = SystemExit 0 ∧
  List.last (events (drain initial_state (full_log 100))) (LogError EmptyString)
  = Stdout (List.map Byte.to_N complete_line) ∧
  List.nth 100 (events (drain initial_state (full_log 100))) (LogError EmptyString)
  = Progress 100 100.
Proof. by vm_compute. Qed.

Example partial_log_exit_1 :
  supervise (files_found_line "10" :: List.repeat docs_added_line 3) 0
  = ([Stdout (u "10 files to index" ++ [10%N]);
      Progress 1 10; Progress 2 10; Progress 3 10;
      LogError "Did not see the indexing complete log message -- exiting with error"],
     SystemExit 1).
Proof. by vm_compute. Qed.

(** A files-found line of commas, or a docs-added line after a line
    announcing 0 files, ends the body of [run] with an exception instead
    of an exit status. *)
Example commas_only_raises :
  (supervise [files_found_line ","] 0).2 = Uncaught ValueError.
Proof. by vm_compute. Qed.

Example zero_files_raises :
  (supervise [files_found_line "0"; docs_added_line] 0).2 = Uncaught ZeroDivisionError.
Proof. by vm_compute. Qed.

(** *** What the three patterns match *)

(** The completion pattern matches the lines that hold, before any line
    feed, the file name, then [Indexing Complete], then
    [documents indexed]. *)
Theorem RE_COMPLETE_spec (data : bytes) :
  matches RE_COMPLETE data = true ↔
  ∃ a m1 m2 rest,
    data = a ++ b "IndexCollection.java" ++ m1 ++ b "Indexing Complete"
             ++ m2 ++ b "documents indexed" ++ rest
    ∧ one_line a ∧ one_line m1 ∧ one_line m2.
Proof.
  rewrite RegexFacts.matches_capture. unfold RE_COMPLETE. cbn [cat capture].
  split.
  - intros (w & rest & g' & -> & a & w1 & g1 & -> & [Ha _]
            & l1 & w2 & g2 & -> & [-> _] & m1 & w3 & g3 & -> & [Hm1 _]
            & l2 & w4 & g4 & -> & [-> _] & m2 & l3 & g5 & -> & [Hm2 _] & -> & _).
    exists a, m1, m2, rest. by rewrite <-!app_assoc.
  - intros (a & m1 & m2 & rest & -> & Ha & Hm1 & Hm2).
    exists (a ++ b "IndexCollection.java" ++ m1 ++ b "Indexing Complete"
              ++ m2 ++ b "documents indexed"), rest, None.
    split; [by rewrite <-!app_assoc|].
    eexists a, _, None. split; [done|]. split; [done|].
    eexists _, _, None. split; [done|]. split; [done|].
    eexists m1, _, None. split; [done|]. split; [done|].
    eexists _, _, None. split; [done|]. split; [done|].
    eexists m2, _, None. split; [done|]. split; done.
Qed.

(** The docs-added pattern matches the lines that hold, before any line
    feed, the name of the indexer thread, any character, [java:], digits
    and a closing parenthesis, and later [ docs added] and one more
    character. *)
Theorem RE_FILE_spec (data : bytes) :
  matches RE_FILE data = true ↔
  ∃ a c ds m e rest,
    data = a ++ b "index.IndexCollection$LocalIndexerThread (IndexCollection"
             ++ [c] ++ b "java:" ++ ds ++ b ")" ++ m ++ b " docs added"
             ++ [e] ++ rest
    ∧ one_line a ∧ dot c = true ∧ digits ds ∧ one_line m ∧ dot e = true.
Proof.
  rewrite RegexFacts.matches_capture. unfold RE_FILE. cbn [cat capture].
  split.
  - intros (w & rest & g' & -> & a & w1 & g1 & -> & [Ha _]
            & l1 & w2 & g2 & -> & [-> _] & c' & w3 & g3 & -> & [(c & -> & Hc) _]
            & l2 & w4 & g4 & -> & [-> _] & ds & w5 & g5 & -> & [Hds _]
            & l3 & w6 & g6 & -> & [-> _] & m & w7 & g7 & -> & [Hm _]
            & l4 & e' & g8 & -> & [-> _] & (e & -> & He) & _).
    exists a, c, ds, m, e, rest. by rewrite <-!app_assoc.
  - intros (a & c & ds & m & e & rest & -> & Ha & Hc & Hds & Hm & He).
    exists (a ++ b "index.IndexCollection$LocalIndexerThread (IndexCollection"
              ++ [c] ++ b "java:" ++ ds ++ b ")" ++ m ++ b " docs added" ++ [e]),
           rest, None.
    split; [by rewrite <-!app_assoc|].
    eexists a, _, None. split; [done|]. split; [done|].
    eexists _, _, None. split; [done|]. split; [done|].
    eexists [c], _, None. split; [done|]. split; [eauto|].
    eexists _, _, None. split; [done|]. split; [done|].
    eexists ds, _, None. split; [done|]. split; [done|].
    eexists _, _, None. split; [done|]. split; [done|].
    eexists m, _, None. split; [done|]. split; [done|].
    eexists _, [e], None. split; [done|]. split; [done|]. eauto.
Qed.

(** The files-found pattern matches the lines that hold, before any line
    feed, the class name, any character, [java:], digits, [) - ], a text
    of digits and commas, and [ files found]. *)
Theorem RE_FILES_spec (data : bytes) :
  matches RE_FILES data = true ↔
  ∃ a c ds text rest,
    data = a ++ b "index.IndexCollection (IndexCollection" ++ [c]
             ++ b "java:" ++ ds ++ b ") - " ++ text ++ b " files found" ++ rest
    ∧ one_line a ∧ dot c = true ∧ digits ds ∧ count_text text.
Proof.
  rewrite RegexFacts.matches_capture. unfold RE_FILES. cbn [cat capture].
  split.
  - intros (w & rest & g' & -> & a & w1 & g1 & -> & [Ha _]
            & l1 & w2 & g2 & -> & [-> _] & c' & w3 & g3 & -> & [(c & -> & Hc) _]
            & l2 & w4 & g4 & -> & [-> _] & ds & w5 & g5 & -> & [Hds _]
            & l3 & w6 & g6 & -> & [-> _] & text & l4 & g7 & ->
            & [[g0 [Htext _]] _] & -> & _).
    exists a, c, ds, text, rest. by rewrite <-!app_assoc.
  - intros (a & c & ds & text & rest & -> & Ha & Hc & Hds & Htext).
    exists (a ++ b "index.IndexCollection (IndexCollection" ++ [c]
              ++ b "java:" ++ ds ++ b ") - " ++ text ++ b " files found"),
           rest, (Some text).
    split; [by rewrite <-!app_assoc|].
    eexists a, _, None. split; [done|]. split; [done|].
    eexists _, _, None. split; [done|]. split; [done|].
    eexists [c], _, None. split; [done|]. split; [eauto|].
    eexists _, _, None. split; [done|]. split; [done|].
    eexists ds, _, None. split; [done|]. split; [done|].
    eexists _, _, None. split; [done|]. split; [done|].
    eexists text, _, (Some text). split; [done|]. split; [|done].
    split; [|done]. exists None. done.
Qed.

(** The text that a match of the files-found pattern captures stands in
    the line between [) - ] and [ files found]. *)
Theorem RE_FILES_captured (data : bytes) (g : option bytes) :
  re_match RE_FILES data = Some g →
  ∃ text a c ds rest,
    g = Some text ∧
    data = a ++ b "index.IndexCollection (IndexCollection" ++ [c]
             ++ b "java:" ++ ds ++ b ") - " ++ text ++ b " files found" ++ rest
    ∧ one_line a ∧ dot c = true ∧ digits ds ∧ count_text text.
Proof.
  intros (w & rest & -> & Hw)%RegexFacts.re_match_capture.
  unfold RE_FILES in Hw. cbn [cat capture] in Hw.
  destruct Hw as (a & w1 & g1 & -> & [Ha _]
            & l1 & w2 & g2 & -> & [-> _] & c' & w3 & g3 & -> & [(c & -> & Hc) _]
            & l2 & w4 & g4 & -> & [-> _] & ds & w5 & g5 & -> & [Hds _]
            & l3 & w6 & g6 & -> & [-> _] & text & l4 & g7 & ->
            & [[g0 [Htext _]] ->] & -> & ->).
  exists text, a, c, ds, rest. by rewrite <-!app_assoc.
Qed.

Lemma RE_FILES_captured_witness :
  re_match RE_FILES (files_found_line "1,234") = Some (Some (b "1,234")) ∧
  ∃ text a c ds rest,
    Some (b "1,234") = Some text ∧
    files_found_line "1,234"
    = a ++ b "index.IndexCollection (IndexCollection" ++ [c]
        ++ b "java:" ++ ds ++ b ") - " ++ text ++ b " files found" ++ rest
    ∧ one_line a ∧ dot c = true ∧ digits ds ∧ count_text text.
Proof.
  assert (re_match RE_FILES (files_found_line "1,234") = Some (Some (b "1,234")))
    as Hm by (vm_compute; reflexivity).
  split; [exact Hm|].
  exact (RE_FILES_captured (files_found_line "1,234") (Some (b "1,234")) Hm).
Defined.

(** *** The loop over a whole stream *)

(** One line, by the branch it takes. *)
Lemma process_line_branch st data :
  process_line st data =
  if matches RE_FILES data then
    match carried_integer data with
    | Some n =>
      Ok ({| nfiles := n; indexedfiles := indexedfiles st;
             complete := complete st || matches RE_COMPLETE data |},
          [Stdout (decimal n ++ u " files to index" ++ [10%N])])
    | None => Raise ValueError
    end
  else if matches RE_FILE data then
    if nfiles st =? 0 then Raise ZeroDivisionError
    else Ok ({| nfiles := nfiles st; indexedfiles := indexedfiles st + 1;
                complete := complete st || matches RE_COMPLETE data |},
             [Progress (indexedfiles st + 1) (nfiles st)])
  else
    match Utf8.decode data with
    | Some text =>
      Ok ({| nfiles := nfiles st; indexedfiles := indexedfiles st;
             complete := complete st || matches RE_COMPLETE data |},
          [Stdout text])
    | None => Raise UnicodeDecodeError
    end.
Proof.
  unfold process_line, carried_integer.
  destruct (re_match RE_FILES data) as [g|] eqn:Hm.
  - assert (matches RE_FILES data = true) as -> by (apply matches_true; eauto).
    by destruct (group_value_files _ _ Hm) as [(n & -> & _)| ->].
  - by apply matches_false in Hm as ->.
Qed.

Lemma filter_length_cons {A} (f : A → bool) x l :
  length (List.filter f (x :: l))
  = ((if f x then 1 else 0) + length (List.filter f l))%nat.
Proof. simpl. by destruct (f x). Qed.

(** When the loop ends without an exception, [indexedfiles] has gone up
    by the number of lines read that match [RE_FILE] and not
    [RE_FILES], and [progress] was called once for each of them. *)
Theorem docs_added_counted (stream : list bytes) (st : progress_state) :
  raised (drain st stream) = None →
  let n := length (List.filter per_unit (lines_read stream)) in
  indexedfiles (final_state st (drain st stream)) = indexedfiles st + Z.of_nat n ∧
  length (List.filter is_progress (events (drain st stream))) = n.
Proof.
  revert st. induction stream as [|data rest IH]; intros st.
  - intros _. cbn. split; [lia|done].
  - destruct data as [|c data]; [intros _; cbn; split; [lia|done]|].
    rewrite drain_cons. cbn [lines_read].
    destruct (process_line st (c :: data)) as [[st' evs]|e] eqn:Hp; [|done].
    cbn [raised events]. intros Hr. cbv zeta.
    rewrite final_state_cons'. destruct (IH st' Hr) as [Hi He].
    rewrite Hi, List.filter_app, length_app, He, filter_length_cons.
    clear IH Hi He. rewrite process_line_branch in Hp. unfold per_unit.
    destruct (matches RE_FILES (c :: data)); simpl.
    + destruct (carried_integer (c :: data)); [|done].
      injection Hp as <- <-. simpl. split; [lia|done].
    + destruct (matches RE_FILE (c :: data)); simpl.
      * destruct (nfiles st =? 0); [done|].
        injection Hp as <- <-. simpl. split; [lia|done].
      * destruct (Utf8.decode (c :: data)); [|done].
        injection Hp as <- <-. simpl. split; [lia|done].
Qed.

Lemma docs_added_counted_witness :
  raised (drain initial_state (full_log 100)) = None ∧
  indexedfiles (final_state initial_state (drain initial_state (full_log 100)))
  = 100 ∧
  length (List.filter is_progress (events (drain initial_state (full_log 100))))
  = 100%nat.
Proof.
  assert (raised (drain initial_state (full_log 100)) = None) as Hr
    by (vm_compute; reflexivity).
  split; [exact Hr|].
  destruct (docs_added_counted (full_log 100) initial_state Hr) as [Hi He].
  split.
  - rewrite Hi. by vm_compute.
  - rewrite He. by vm_compute.
Defined.

(** What is on standard output when the loop ends without an exception:
    for each line read, in order, the count message of a files-found
    line, nothing for a docs-added line, and the decoded text of any
    other line. *)
Theorem stdout_of_stream (stream : list bytes) (st : progress_state) :
  raised (drain st stream) = None →
  stdout_of (events (drain st stream))
  = List.flat_map line_output (lines_read stream).
Proof.
  revert st. induction stream as [|data rest IH]; intros st; [done|].
  destruct data as [|c data]; [done|].
  rewrite drain_cons. cbn [lines_read List.flat_map].
  destruct (process_line st (c :: data)) as [[st' evs]|e] eqn:Hp; [|done].
  cbn [raised events]. intros Hr. unfold stdout_of in *.
  rewrite omap_app, (IH st' Hr). f_equal.
  rewrite process_line_branch in Hp. unfold line_output.
  destruct (matches RE_FILES (c :: data)).
  - destruct (carried_integer (c :: data)); [|done]. by injection Hp as <- <-.
  - destruct (matches RE_FILE (c :: data)).
    + destruct (nfiles st =? 0); [done|]. by injection Hp as <- <-.
    + destruct (Utf8.decode (c :: data)); [|done]. by injection Hp as <- <-.
Qed.

Lemma stdout_of_stream_witness :
  let stream := [other_line; files_found_line "2"; docs_added_line; complete_line] in
  raised (drain initial_state stream) = None ∧
  stdout_of (events (drain initial_state stream))
  = [List.map Byte.to_N other_line; u "2 files to index" ++ [10%N];
     List.map Byte.to_N complete_line].
Proof.
  cbv zeta.
  assert (raised (drain initial_state
            [other_line; files_found_line "2"; docs_added_line; complete_line])
          = None) as Hr by (vm_compute; reflexivity).
  split; [exact Hr|].
  rewrite (stdout_of_stream _ initial_state Hr). by vm_compute.
Defined.





Lemma drain_line_ok stream : ∀ st,
  nfiles st ≠ 0 →
  Forall (fun l => line_ok l = true) stream →
  raised (drain st stream) = None.
Proof.
  induction stream as [|data rest IH]; intros st Hn Hall; [done|].
  apply Forall_cons in Hall as [Hok Hall].
  destruct data as [|c data]; [done|].
  rewrite drain_cons, process_line_branch. unfold line_ok in Hok.
  destruct (matches RE_FILES (c :: data)).
  - destruct (carried_integer (c :: data)) as [n|]; [|done].
    cbn [raised]. apply IH; [|done]. simpl.
    by destruct (Z.eqb_spec n 0).
  - destruct (matches RE_FILE (c :: data)).
    + destruct (Z.eqb_spec (nfiles st) 0); [done|]. cbn [raised]. by apply IH.
    + apply bool_decide_eq_true in Hok as [text ->]. cbn [raised]. by apply IH.
Qed.


Lemma drain_app_raised pre post : ∀ st e,
  raised (drain st pre) = Some e → raised (drain st (pre ++ post)) = Some e.
Proof.
  induction pre as [|data pre IH]; intros st e; [done|].
  destruct data as [|c data]; [done|].
  rewrite <-app_comm_cons, !drain_cons.
  destruct (process_line st (c :: data)) as [[st' evs]|e']; [|done].
  cbn [raised]. apply IH.
Qed.

Lemma last_app_cons {A} (h1 h2 : list A) a : ∀ d,
  List.last (h1 ++ a :: h2) d = List.last h2 a.
Proof.
  induction h1 as [|x h1 IH]; intros d.
  - apply last_cons.
  - rewrite <-app_comm_cons, last_cons. apply IH.
Qed.

(** The total in use is the one of the last files-found line: after a
    line carrying [n] that no files-found line follows, [nfiles] is
    [n]. *)
Theorem last_total_wins (pre post : list bytes) (l : bytes) (n : Z) :
  Forall (fun d => d ≠ []) pre →
  raised (drain initial_state (pre ++ l :: post)) = None →
  carried_integer l = Some n →
  Forall (fun d => matches RE_FILES d = false) post →
  nfiles (final_state initial_state (drain initial_state (pre ++ l :: post))) = n.
Proof.
  intros Hpre Hr Hl Hpost.
  assert (raised (drain initial_state pre) = None) as Hr1.
  { destruct (raised (drain initial_state pre)) as [e|] eqn:E; [|done].
    by rewrite (drain_app_raised _ _ _ _ E) in Hr. }
  rewrite drain_app in Hr |- * by done. cbv zeta in *. cbn [raised] in Hr.
  set (st1 := final_state initial_state (drain initial_state pre)) in *.
  assert (l ≠ []) as Hne by (intros ->; by vm_compute in Hl).
  destruct l as [|c l]; [done|]. rewrite drain_cons in Hr |- *.
  rewrite process_line_branch in Hr |- *.
  assert (matches RE_FILES (c :: l) = true) as Hm.
  { unfold carried_integer in Hl. apply matches_true.
    destruct (re_match RE_FILES (c :: l)); [by eexists|done]. }
  rewrite Hm, Hl in Hr |- *. cbv zeta in *. cbn [raised history] in *.
  unfold final_state. cbn [history]. rewrite last_app_cons.
  exact (drain_nfiles post _ Hpost).
Qed.

Lemma last_total_wins_witness :
  let pre := [files_found_line "7"; docs_added_line] in
  let post := [docs_added_line; complete_line] in
  Forall (fun d => d ≠ []) pre ∧
  raised (drain initial_state (pre ++ files_found_line "1,234" :: post)) = None ∧
  carried_integer (files_found_line "1,234") = Some 1234 ∧
  Forall (fun d => matches RE_FILES d = false) post ∧
  nfiles (final_state initial_state
            (drain initial_state (pre ++ files_found_line "1,234" :: post)))
  = 1234.
Proof.
  cbv zeta.
  assert (Forall (fun d : bytes => d ≠ []) [files_found_line "7"; docs_added_line])
    as H1 by (repeat constructor; by vm_compute).
  assert (raised (drain initial_state
            ([files_found_line "7"; docs_added_line]
             ++ files_found_line "1,234" :: [docs_added_line; complete_line]))
          = None) as H2 by (vm_compute; reflexivity).
  assert (carried_integer (files_found_line "1,234") = Some 1234) as H3
    by (vm_compute; reflexivity).
  assert (Forall (fun d => matches RE_FILES d = false)
            [docs_added_line; complete_line]) as H4
    by (repeat constructor; vm_compute; reflexivity).
  do 4 (split; [assumption|]).
  exact (last_total_wins _ _ _ 1234 H1 H2 H3 H4).
Defined.

End SupervisorFacts.

(** ** The supervisor in the scope of the generator *)
Module IndexCollectionFacts.
Import Regex StreamGenerator Supervisor IndexCollection SupervisorFacts.




(** When every files-found line carries an integer that is not 0 and
    every line to echo is valid UTF-8, and [__exit__] of the generator
    returns, [run] ends with [sys.exit]. *)
Theorem run_exits (g : manager) (files files' : fs)
    (stdout : list bytes) (returncode : Z) :
  Forall (fun l => line_ok l = true) stdout →
  __exit__ g files = Returns files' →
  ∃ code, (run g files stdout returncode).2 = Ends (Exit code).
Proof.
  intros Hall Hexit. unfold run. cbn [snd]. rewrite Hexit.
  rewrite supervise_status by by apply drain_line_ok. eauto.
Qed.

Lemma run_exits_witness :
  Forall (fun l => line_ok l = true)
         [other_line; files_found_line "3"; docs_added_line; complete_line] ∧
  __exit__ Null ∅ = Returns ∅ ∧
  ∃ code,
    (run Null ∅ [other_line; files_found_line "3"; docs_added_line; complete_line] 0).2
    = Ends (Exit code).
Proof.
  assert (Forall (fun l => line_ok l = true)
            [other_line; files_found_line "3"; docs_added_line; complete_line])
    as Hall by (repeat constructor; vm_compute; reflexivity).
  split; [exact Hall|]. split; [reflexivity|].
  exact (run_exits Null ∅ ∅ _ 0 Hall eq_refl).
Defined.

End IndexCollectionFacts.

(** ** The producer of [csv_collection] *)
Module CsvProducerFacts.
Import CsvProducer.

(** *** Splitting *)





(** *** Stripping *)




Lemma hex_digit_printable n : (n < 16)%N → printable (hex_digit n).
Proof. unfold hex_digit, printable. destruct (N.ltb_spec n 10); lia. Qed.

Lemma escape_u_printable n : Forall printable (escape_u n).
Proof.
  unfold escape_u, hex4.
  repeat constructor; try (unfold printable; lia);
    apply hex_digit_printable, N.mod_upper_bound; lia.
Qed.

Lemma escape_char_printable c : Forall printable (escape_char c).
Proof.
  unfold escape_char.
  repeat case_match;
    first [ apply escape_u_printable
          | apply Forall_app; split; apply escape_u_printable
          | repeat constructor; unfold printable;
            repeat match goal with
                   | H : _ && _ = true |- _ => apply andb_true_iff in H as [??]
                   | H : (_ <=? _)%N = true |- _ => apply N.leb_le in H
                   end; lia ].
Qed.

Lemma literal_printable (l : str) :
  forallb (fun c => (32 <=? c) && (c <=? 126))%N l = true → Forall printable l.
Proof.
  induction l as [|c l IH]; simpl; [constructor|].
  intros [[H1%N.leb_le H2%N.leb_le]%andb_true_iff Hl]%andb_true_iff.
  constructor; [|by apply IH]. unfold printable. lia.
Qed.

Lemma json_string_printable s : Forall printable (json_string s).
Proof.
  unfold json_string. rewrite !Forall_app.
  split; [by apply literal_printable|]. split; [|by apply literal_printable].
  induction s as [|c s IH]; [constructor|].
  simpl. apply Forall_app. split; [apply escape_char_printable|done].
Qed.

(** A JSON document holds no raw line feed: it is one line. *)
Lemma json_document_printable docid text : Forall printable (json_document docid text).
Proof.
  unfold json_document. rewrite !Forall_app.
  repeat split; try apply json_string_printable; by apply literal_printable.
Qed.

Lemma json_document_one_line docid text :
  count_occ N.eq_dec (json_document docid text) 10%N = 0%nat.
Proof.
  apply count_occ_not_In. intros Hin.
  pose proof (json_document_printable docid text) as Hp.
  rewrite Forall_forall in Hp. apply list_elem_of_In, Hp in Hin.
  unfold printable in Hin. lia.
Qed.

(** *** Reading the source *)





(** A file that gives a line is not empty. *)
Lemma getsize_pos (text : str) : read_lines text ≠ [] → 0 < getsize text.
Proof.
  destruct text as [|c text]; [done|]. intros _.
  unfold getsize. cbn [List.map list_sum_Z List.fold_right].
  assert (0 <= List.fold_right Z.add 0 (List.map utf8_length text)) as Hrest.
  { induction text as [|c' text IH]; [done|]. cbn [List.map List.fold_right].
    unfold utf8_length at 1. repeat case_match; lia. }
  unfold utf8_length at 1. repeat case_match; lia.
Qed.

(** *** The claims *)











Example further_separators_kept :
  document [9%N] (u "d1" ++ [9%N] ++ u "first" ++ [9%N] ++ u "second" ++ [10%N])
  = Ok (u "d1", u "first" ++ [9%N] ++ u "second").
Proof. by vm_compute. Qed.

Example no_separator_raises :
  _generator [9%N] 15 [u "d1 no tab here" ++ [10%N]]
  = mkProduced [] [(15, 15)] (Some ValueError).
Proof. by vm_compute. Qed.

Example empty_separator_raises :
  document [] (u "d1" ++ [10%N]) = Raise ValueError.
Proof. by vm_compute. Qed.

(** *** More on the producer *)

Lemma lstrip_all_space line :
  Forall (fun c => is_space c = true) line → lstrip line = [].
Proof. induction 1 as [|c line Hc _ IH]; [done|]. simpl. by rewrite Hc. Qed.

(** A line of white space only, the empty line included, is no
    document: splitting it raises [ValueError], whatever the
    separator. *)
Theorem blank_line_raises (separator line : str) :
  Forall (fun c => is_space c = true) line →
  document separator line = Raise ValueError.
Proof.
  intros Hline. unfold document, strip, rstrip.
  rewrite (lstrip_all_space _ Hline). simpl.
  destruct separator as [|c sep]; [done|]. reflexivity.
Qed.

Lemma blank_line_raises_witness :
  Forall (fun c => is_space c = true) [32%N; 9%N; 10%N] ∧
  document [9%N] [32%N; 9%N; 10%N] = Raise ValueError.
Proof.
  assert (Forall (fun c => is_space c = true) [32%N; 9%N; 10%N]) as Hb
    by (repeat constructor).
  split; [exact Hb|]. exact (blank_line_raises [9%N] _ Hb).
Defined.

Lemma generate_out separator size lines : ∀ counter,
  size ≠ 0 →
  let p := generate separator size counter lines in
  out p = json_lines (documents_before_failure separator lines) ∧
  (failure p = None ↔
   length (documents_before_failure separator lines) = length lines) ∧
  length (reports p)
  = Nat.min (length lines) (S (length (documents_before_failure separator lines))).
Proof.
  intros counter Hsize. revert counter.
  induction lines as [|line rest IH]; intros counter; [done|].
  cbn [generate documents_before_failure]. destruct (Z.eqb_spec size 0); [done|].
  destruct (document separator line) as [[docid text]|e];
    cbv zeta; cbn [out failure reports length].
  - destruct (IH (counter + Z.of_nat (length line))) as (-> & Hf & ->).
    split; [|split].
    + unfold json_lines. cbn [List.flat_map fst snd]. by rewrite <-app_assoc.
    + rewrite Hf. split; [by intros ->|by intros [= ?]].
    + reflexivity.
  - split; [done|]. split; [done|]. by destruct rest.
Qed.

(** The producer writes whole lines only: whatever the source, what is
    on the channel when the producer stops is the documents of the lines
    before the first line that is no document, a line each; the producer
    ends without an exception exactly when every line is a document, and
    it reports progress once for each line it read. *)
Theorem whole_documents_only (separator text : str) :
  let lines := read_lines text in
  let p := stream_file separator text in
  let docs := documents_before_failure separator lines in
  out p = json_lines docs ∧
  count_occ N.eq_dec (out p) 10%N = length docs ∧
  (failure p = None ↔ length docs = length lines) ∧
  length (reports p) = Nat.min (length lines) (S (length docs)).
Proof.
  intros lines p docs.
  assert (out p = json_lines docs ∧
          (failure p = None ↔ length docs = length lines) ∧
          length (reports p) = Nat.min (length lines) (S (length docs)))
    as (Ho & Hf & Hr).
  { subst p docs. unfold stream_file, _generator. fold lines.
    destruct lines as [|line rest] eqn:Hlines; [done|].
    apply generate_out.
    assert (0 < getsize text); [|lia].
    apply getsize_pos. fold lines. by rewrite Hlines. }
  split; [exact Ho|]. split; [|split; [exact Hf|exact Hr]].
  rewrite Ho. generalize docs.
  intros rs. induction rs as [|r rs IH]; [reflexivity|].
  unfold json_lines in *. cbn [List.flat_map length].
  rewrite !count_occ_app, json_document_one_line, IH. reflexivity.
Qed.

(** A source whose second line has no separator: one document is
    written, and progress is reported twice. *)
Example second_line_stops :
  let p := stream_file [9%N] (u "d1" ++ [9%N] ++ u "alpha" ++ [10%N] ++ u "oops"
                              ++ [10%N] ++ u "d3" ++ [9%N] ++ u "gamma" ++ [10%N]) in
  out p = json_document (u "d1") (u "alpha") ++ [10%N] ∧
  reports p = [(9, 23); (14, 23)] ∧ failure p = Some ValueError.
Proof. by vm_compute. Qed.

(** Whatever the source holds, the producer writes ASCII only: printable
    characters and the line feeds that end the documents. *)
Theorem channel_is_ascii (separator text : str) :
  Forall (fun c => printable c ∨ c = 10%N) (out (stream_file separator text)).
Proof.
  unfold stream_file, _generator.
  generalize (getsize text), (read_lines text). clear text. intros size lines.
  generalize 0. induction lines as [|line rest IH]; intros counter.
  - constructor.
  - cbn [generate]. destruct (size =? 0); [constructor|].
    destruct (document separator line) as [[docid text]|e]; [|constructor].
    cbn [out]. rewrite !Forall_app. split; [|split].
    + eapply Forall_impl; [apply json_document_printable|]. simpl. auto.
    + by repeat constructor; right.
    + apply IH.
Qed.

Lemma list_sum_Z_nonneg l : Forall (fun x => 0 <= x) l → 0 <= list_sum_Z l.
Proof. induction 1; simpl; [done|]. unfold list_sum_Z in *. lia. Qed.

Lemma chars_le_bytes (line : str) :
  Z.of_nat (length line) <= list_sum_Z (List.map utf8_length line).
Proof.
  induction line as [|c line IH]; simpl; [done|].
  assert (1 <= utf8_length c) by (unfold utf8_length; repeat case_match; lia).
  unfold list_sum_Z in *. lia.
Qed.

Lemma generate_reports separator size lines : ∀ counter,
  0 <= counter → counter + byte_size lines <= size →
  Forall (fun r => counter <= r.1 <= size ∧ r.2 = size)
         (reports (generate separator size counter lines)).
Proof.
  induction lines as [|line rest IH]; intros counter Hc Hs; [constructor|].
  cbn [generate]. destruct (size =? 0); [constructor|].
  pose proof (chars_le_bytes line) as Hline.
  assert (0 <= byte_size rest) as Hrest.
  { apply list_sum_Z_nonneg, Forall_forall. intros x (l & <- & _)%list_elem_of_In%in_map_iff.
    pose proof (chars_le_bytes l). lia. }
  unfold byte_size in Hs, Hrest. cbn [List.map] in Hs.
  unfold list_sum_Z in Hs at 1. cbn [List.fold_right] in Hs.
  fold (list_sum_Z (List.map (λ line, list_sum_Z (List.map utf8_length line)) rest)) in Hs.
  destruct (document separator line) as [[docid text]|e]; cbn [reports].
  - constructor; [simpl; lia|].
    eapply Forall_impl; [apply IH; unfold byte_size; lia|].
    simpl. intros r [? ?]. split; [lia|done].
  - constructor; [simpl; lia|constructor].
Qed.

Lemma getsize_app (s t : str) : getsize (s ++ t) = getsize s + getsize t.
Proof.
  unfold getsize, list_sum_Z. induction s as [|c s IH]; [done|].
  cbn [app List.map List.fold_right]. lia.
Qed.

Lemma getsize_cons (c : N) (t : str) : getsize (c :: t) = utf8_length c + getsize t.
Proof. done. Qed.

Lemma utf8_length_pos c : 1 <= utf8_length c.
Proof. unfold utf8_length. repeat case_match; lia. Qed.

(** Reading in universal newlines mode does not make the text longer. *)
Lemma universal_newlines_size (n : nat) : ∀ text,
  (length text <= n)%nat → getsize (universal_newlines text) <= getsize text.
Proof.
  induction n as [|n IH]; intros [|c text] Hn; cbn [length] in Hn;
    [done|lia|done|].
  cbn [universal_newlines]. destruct (N.eqb_spec c 13) as [->|Hc].
  - destruct text as [|c' text]; [done|].
    rewrite !getsize_cons. cbn [length] in Hn.
    destruct (N.eqb_spec c' 10) as [->|Hc'].
    + pose proof (IH text ltac:(lia)). pose proof (utf8_length_pos 10). 
      change (utf8_length 13) with 1. change (utf8_length 10) with 1 in *. lia.
    + pose proof (IH (c' :: text) ltac:(cbn [length]; lia)) as H.
      rewrite getsize_cons in H.
      change (utf8_length 13) with 1. change (utf8_length 10) with 1. lia.
  - rewrite !getsize_cons. pose proof (IH text ltac:(lia)). lia.
Qed.

(** The lines of a text are the text, cut. *)
Lemma split_lines_size (text : str) : byte_size (split_lines text) = getsize text.
Proof.
  induction text as [|c text IH]; [done|].
  cbn [split_lines]. rewrite getsize_cons, <-IH.
  destruct (c =? 10)%N; [|destruct (split_lines text) as [|line lines]];
    unfold byte_size, list_sum_Z; cbn [List.map List.fold_right]; lia.
Qed.

(** The producer counts characters against the size of the file in
    bytes: every progress report is a count between 0 and the size, over
    the size, so that the fraction reported stays between 0 and 1. *)
Theorem progress_within_bounds (separator text : str) :
  Forall (fun r => 0 <= r.1 <= getsize text ∧ r.2 = getsize text)
         (reports (stream_file separator text)).
Proof.
  unfold stream_file, _generator. apply generate_reports; [done|].
  unfold read_lines. rewrite split_lines_size.
  pose proof (universal_newlines_size (length text) text ltac:(done)). lia.
Qed.

(** A source with a character of two bytes and a line that ends with a
    carriage return and a line feed: the counts stay below the size. *)
Example progress_of_crlf :
  reports (stream_file [9%N] (u "d1" ++ [9%N; 233%N; 13%N; 10%N]
                              ++ u "d2" ++ [9%N] ++ u "b" ++ [10%N]))
  = [(5, 12); (10, 12)].
Proof. by vm_compute. Qed.

(** *** Nothing is lost in the JSON text *)

Lemma unhex_hex_digit n : (n < 16)%N → unhex (hex_digit n) = Some n.
Proof.
  intros Hn. unfold unhex, hex_digit.
  destruct (N.ltb_spec n 10).
  - destruct (N.leb_spec 48 (48 + n)); [|lia].
    destruct (N.leb_spec (48 + n) 57); [|lia]. simpl. f_equal. lia.
  - destruct (N.leb_spec (87 + n) 57); [lia|]. rewrite andb_false_r.
    destruct (N.leb_spec 97 (87 + n)); [|lia].
    destruct (N.leb_spec (87 + n) 102); [|lia]. simpl. f_equal. lia.
Qed.

(** Linear arithmetic with quotients and remainders by constants. *)
Ltac div_lia := zify; Z.to_euclidean_division_equations; lia.

Lemma hex4_value n :
  (n < 65536)%N →
  (4096 * (n / 4096 mod 16) + 256 * (n / 256 mod 16)
   + 16 * (n / 16 mod 16) + n mod 16 = n)%N.
Proof.
  intros Hn.
  replace (n / 256)%N with (n / 16 / 16)%N
    by (rewrite N.Div0.div_div; reflexivity).
  replace (n / 4096)%N with (n / 16 / 16 / 16)%N
    by (rewrite !N.Div0.div_div; reflexivity).
  div_lia.
Qed.

Lemma unhex4_hex4 n rest :
  (n < 65536)%N → unhex4 (hex4 n ++ rest) = Some (n, rest).
Proof.
  intros Hn. unfold hex4, unhex4. cbn [app].
  rewrite !unhex_hex_digit by (apply N.mod_upper_bound; lia).
  by rewrite hex4_value.
Qed.

Lemma read_escape_u n rest :
  (n < 65536)%N →
  read_char (escape_u n ++ rest) =
  if ((0xD800 <=? n) && (n <=? 0xDBFF))%N then
    match strip_prefix N.eqb [92; 117]%N rest with
    | Some rest3 =>
      match unhex4 rest3 with
      | Some (lo, rest4) =>
        Some (0x10000 + (n - 0xD800) * 1024 + (lo - 0xDC00), rest4)%N
      | None => None
      end
    | None => None
    end
  else Some (n, rest).
Proof.
  intros Hn. unfold escape_u, read_char. cbn [app N.eqb Pos.eqb].
  by rewrite unhex4_hex4.
Qed.

Lemma lor_small (base x : N) :
  (base = 0xD800 ∨ base = 0xDC00)%N → (x < 1024)%N →
  N.lor base x = (base + x)%N.
Proof.
  intros Hb Hx.
  assert (forallb (fun k => (N.lor 0xD800 (N.of_nat k) =? 0xD800 + N.of_nat k)
                            && (N.lor 0xDC00 (N.of_nat k) =? 0xDC00 + N.of_nat k))%N
                  (seq 0 1024) = true) as Hall by (vm_compute; reflexivity).
  rewrite forallb_forall in Hall. specialize (Hall (N.to_nat x)).
  rewrite N2Nat.id in Hall.
  destruct (andb_prop _ _ (Hall ltac:(apply in_seq; lia))) as [H1 H2].
  destruct Hb as [-> | ->]; by apply N.eqb_eq.
Qed.

(** [read_char] reads back the character that [escape_char] wrote. *)
Lemma read_escape_char c rest :
  scalar c → read_char (escape_char c ++ rest) = Some (c, rest).
Proof.
  intros Hc. unfold escape_char.
  destruct (N.eqb_spec c 34) as [->|]; [done|].
  destruct (N.eqb_spec c 92) as [->|]; [done|].
  destruct (N.eqb_spec c 10) as [->|]; [done|].
  destruct (N.eqb_spec c 13) as [->|]; [done|].
  destruct (N.eqb_spec c 9) as [->|]; [done|].
  destruct (N.eqb_spec c 12) as [->|]; [done|].
  destruct (N.eqb_spec c 8) as [->|]; [done|].
  destruct ((32 <=? c) && (c <=? 126))%N eqn:Hp.
  - cbn [app read_char].
    destruct (N.eqb_spec c 34); [done|]. by destruct (N.eqb_spec c 92).
  - destruct (N.ltb_spec c 0x10000) as [Hlt|Hge].
    + rewrite read_escape_u by done.
      destruct (N.leb_spec 0xD800 c); [|done].
      destruct (N.leb_spec c 0xDBFF); [|done].
      unfold scalar in Hc. lia.
    + unfold scalar in Hc. cbv zeta.
      remember (c - 0x10000)%N as v eqn:Ev.
      assert (v < 1048576)%N as Hv by lia.
      rewrite N.shiftr_div_pow2.
      change 0x3FF%N with (N.ones 10). rewrite !N.land_ones.
      change (2 ^ 10)%N with 1024%N.
      rewrite !lor_small by (auto; apply N.mod_upper_bound; lia).
      rewrite <-app_assoc, read_escape_u by div_lia.
      destruct (N.leb_spec 0xD800 (0xD800 + (v / 1024) mod 1024)); [|div_lia].
      destruct (N.leb_spec (0xD800 + (v / 1024) mod 1024) 0xDBFF); [|div_lia].
      cbn [andb]. unfold escape_u at 1. cbn [app strip_prefix N.eqb Pos.eqb].
      rewrite unhex4_hex4 by div_lia.
      f_equal. f_equal. div_lia.
Qed.

Lemma escape_char_not_nil c : escape_char c ≠ [].
Proof.
  unfold escape_char, escape_u. repeat case_match; discriminate.
Qed.

(** The inside of a JSON string, up to its closing quote, tells the
    text. *)
Lemma escaped_text_inj (s1 : str) : ∀ s2 r1 r2,
  Forall scalar s1 → Forall scalar s2 →
  List.flat_map escape_char s1 ++ 34%N :: r1
  = List.flat_map escape_char s2 ++ 34%N :: r2 →
  s1 = s2 ∧ r1 = r2.
Proof.
  induction s1 as [|c1 s1 IH]; intros [|c2 s2] r1 r2 H1 H2; cbn [List.flat_map].
  - by intros [= ->].
  - rewrite <-app_assoc. intros Heq. apply (f_equal read_char) in Heq.
    rewrite read_escape_char in Heq by by inversion H2. done.
  - rewrite <-app_assoc. intros Heq. apply (f_equal read_char) in Heq.
    rewrite read_escape_char in Heq by by inversion H1. done.
  - rewrite <-!app_assoc. intros Heq. apply (f_equal read_char) in Heq.
    apply Forall_cons in H1 as [Hc1 H1]. apply Forall_cons in H2 as [Hc2 H2].
    rewrite !read_escape_char in Heq by done. injection Heq as -> Heq.
    by destruct (IH _ _ _ H1 H2 Heq) as [-> ->].
Qed.

Lemma json_string_inj s1 s2 r1 r2 :
  Forall scalar s1 → Forall scalar s2 →
  json_string s1 ++ r1 = json_string s2 ++ r2 → s1 = s2 ∧ r1 = r2.
Proof.
  intros H1 H2. unfold json_string. rewrite <-!app_assoc. cbn [app].
  intros [= Heq]. by apply escaped_text_inj.
Qed.

(** Two documents with the same JSON text have the same identifier and
    the same contents: the producer loses nothing of a record. *)
Theorem json_document_injective (docid1 text1 docid2 text2 : str) :
  Forall scalar docid1 → Forall scalar text1 →
  Forall scalar docid2 → Forall scalar text2 →
  json_document docid1 text1 = json_document docid2 text2 →
  docid1 = docid2 ∧ text1 = text2.
Proof.
  intros Hd1 Ht1 Hd2 Ht2. unfold json_document.
  intros Heq. apply app_inv_head, app_inv_head, app_inv_head in Heq.
  apply json_string_inj in Heq as [-> Heq]; [|done..].
  apply app_inv_head, app_inv_head, app_inv_head in Heq.
  by apply json_string_inj in Heq as [-> _].
Qed.

Lemma json_document_injective_witness :
  Forall scalar (u "d1") ∧ Forall scalar [233%N; 0x1F600%N; 34%N] ∧
  (json_document (u "d1") [233%N; 0x1F600%N; 34%N]
   = json_document (u "d1") [233%N; 0x1F600%N; 34%N] →
   u "d1" = u "d1" ∧ [233%N; 0x1F600%N; 34%N] = [233%N; 0x1F600%N; 34%N]).
Proof.
  assert (Forall scalar (u "d1")) as H1
    by (repeat constructor; unfold scalar; lia).
  assert (Forall scalar [233%N; 0x1F600%N; 34%N]) as H2
    by (repeat constructor; unfold scalar; lia).
  split; [exact H1|]. split; [exact H2|].
  exact (json_document_injective _ _ _ _ H1 H2 H1 H2).
Defined.

End CsvProducerFacts.

(** ** [StreamGenerator] *)
Module StreamGeneratorFacts.
Import CsvProducer StreamGenerator.

(** *** The file operations on the temporary directory *)

Lemma mkdir_fresh d (files0 : fs) :
  files0 !! d = None → mkdir d files0 = inr (<[d := ∅]> files0).
Proof. unfold mkdir. by intros ->. Qed.

Lemma mkfifo_empty d x (files0 : fs) :
  mkfifo d x (<[d := ∅]> files0) = inr (<[d := {[x]}]> files0).
Proof.
  unfold mkfifo. rewrite lookup_insert_eq.
  rewrite decide_False by set_solver.
  by rewrite insert_insert_eq, (left_id_L ∅ (∪)).
Qed.

Lemma unlink_only d x (files0 : fs) :
  unlink d x (<[d := {[x]}]> files0) = inr (<[d := ∅]> files0).
Proof.
  unfold unlink. rewrite lookup_insert_eq.
  rewrite decide_True by set_solver.
  by rewrite insert_insert_eq, difference_diag_L.
Qed.

Lemma rmdir_empty d (files0 : fs) :
  files0 !! d = None → rmdir d (<[d := ∅]> files0) = inr files0.
Proof.
  intros Hd. unfold rmdir. rewrite lookup_insert_eq.
  rewrite decide_True by done.
  by rewrite delete_insert_eq, delete_id.
Qed.

Lemma initial_inv c files0 : inv c files0 (initial files0) ∧ written c (initial files0).
Proof. done. Qed.

Lemma main_step_inv c files0 s s' :
  files0 !! tmpdir c = None →
  inv c files0 s → written c s → main_step c s = Some s' →
  inv c files0 s' ∧ written c s'.
Proof.
  intros Hfresh Hinv Hw. destruct s as [f ch p m].
  unfold main_step, inv, written in *. simpl in *.
  destruct m as [|d|d|d [|n]|d r|d r|d r|r|e]; try done.
  - destruct Hinv as [-> ->]. rewrite mkdir_fresh by done.
    intros [= <-]. by simpl.
  - destruct Hinv as (-> & -> & ->). rewrite mkfifo_empty.
    intros [= <-]. by simpl.
  - destruct Hinv as (-> & -> & ->). subst ch. intros [= <-]. by simpl.
  - destruct Hinv as (-> & -> & ?). intros [= <-]. by simpl.
  - destruct Hinv as (-> & -> & ?). intros [= <-]. by simpl.
  - destruct Hinv as (-> & -> & ? & ->). destruct p; try done.
    intros [= <-]. by simpl.
  - destruct Hinv as (-> & -> & ? & ->). rewrite unlink_only.
    intros [= <-]. by simpl.
  - destruct Hinv as (-> & -> & ? & ->). rewrite rmdir_empty by done.
    intros [= <-]. by simpl.
Qed.

Lemma producer_step_inv c files0 s s' :
  inv c files0 s → written c s → producer_step c s = Some s' →
  inv c files0 s' ∧ written c s'.
Proof.
  intros Hinv Hw. destruct s as [f ch p m].
  unfold producer_step, inv, written in *. simpl in *.
  destruct p as [|[|x todo]|o]; try done; intros [= <-]; simpl.
  - rewrite app_nil_r in Hw. split; [|done].
    destruct m; intuition (done || congruence).
  - rewrite <-app_assoc. split; [|done].
    destruct m; intuition (done || congruence).
Qed.

Lemma exec_inv c files0 sched : ∀ s s',
  files0 !! tmpdir c = None →
  inv c files0 s → written c s → exec c sched s = Some s' →
  inv c files0 s' ∧ written c s'.
Proof.
  induction sched as [|a sched IH]; intros s s' Hfresh Hinv Hw; simpl.
  - by intros [= <-].
  - destruct (step c a s) as [s1|] eqn:Hstep; [|done].
    assert (inv c files0 s1 ∧ written c s1) as [??].
    { destruct a; [by eapply main_step_inv|by eapply producer_step_inv]. }
    by apply IH.
Qed.

(** *** A run that goes through *)

Lemma exec_app c l1 l2 s :
  exec c (l1 ++ l2) s = exec c l1 s ≫= exec c l2.
Proof.
  revert s. induction l1 as [|a l1 IH]; intros s; simpl; [done|].
  by destruct (step c a s).
Qed.

Lemma exec_app_Some c l1 l2 s s1 :
  exec c l1 s = Some s1 → exec c (l1 ++ l2) s = exec c l2 s1.
Proof. intros H. by rewrite exec_app, H. Qed.

Lemma exec_body c f ch p d n :
  exec c (replicate n Main) (mkState f ch p (Body d n))
  = Some (mkState f ch p (Body d 0)).
Proof. induction n as [|n IH]; simpl; [done|]. by rewrite IH. Qed.

Lemma exec_producer c f m todo : ∀ ch,
  exec c (replicate (S (length todo)) Producer) (mkState f ch (Running todo) m)
  = Some (mkState f (ch ++ todo) (Finished (producer_raises c)) m).
Proof.
  induction todo as [|x todo IH]; intros ch.
  - simpl. by rewrite app_nil_r.
  - change (replicate (S (length (x :: todo))) Producer)
      with (Producer :: replicate (S (length todo)) Producer).
    cbn [exec step producer_step producer files channel main].
    rewrite IH. by rewrite <-app_assoc.
Qed.

Lemma late_producer_run c (files0 : fs) :
  files0 !! tmpdir c = None →
  exec c (late_producer c) (initial files0)
  = Some (mkState files0 (chunks c) (Finished (producer_raises c))
                  (Left (body_end c))).
Proof.
  intros Hfresh. unfold late_producer.
  replace (replicate (4 + body_steps c) Main)
    with ([Main; Main; Main] ++ replicate (body_steps c) Main ++ [Main]).
  2:{ simpl. do 3 f_equal. by rewrite <-replicate_S_end. }
  set (inside := <[tmpdir c := {[fifo_name]}]> files0).
  assert (exec c [Main; Main; Main] (initial files0)
          = Some (mkState inside [] (Running (chunks c))
                          (Body (tmpdir c) (body_steps c)))) as H1.
  { unfold initial. cbn [exec step]. unfold main_step at 1.
    cbn [main files channel producer]. rewrite mkdir_fresh by done.
    unfold main_step at 1. cbn [main files channel producer].
    by rewrite mkfifo_empty. }
  rewrite <-!app_assoc. rewrite (exec_app_Some _ _ _ _ _ H1).
  rewrite (exec_app_Some _ _ _ _ _ (exec_body _ _ _ _ _ _)).
  cbn [app exec step]. unfold main_step at 1.
  cbn [main files channel producer].
  rewrite (exec_app_Some _ _ _ _ _ (exec_producer _ _ _ _ _)).
  cbn [replicate app exec step]. unfold main_step at 1.
  cbn [main files channel producer]. unfold main_step at 1.
  cbn [main files channel producer]. unfold inside. rewrite unlink_only.
  unfold main_step. cbn [main files channel producer].
  by rewrite rmdir_empty.
Qed.

(** C2. Whatever the producer does, return or raise, and however the two
    threads are interleaved: while the main thread is inside the [with]
    statement the fifo exists; [__exit__] reaches the removal only when
    the producer thread has finished; and once the [with] statement is
    left the fifo and its directory are gone, the files being those from
    before the generator was made. The statement can be left: the
    schedule [late_producer] gets there. *)
Theorem fifo_scoped_lifetime (c : scenario) (files0 : fs)
    (sched : list actor) (s : state) :
  files0 !! tmpdir c = None →
  exec c sched (initial files0) = Some s →
  (in_scope (main s) → exists_in (tmpdir c) fifo_name (files s)) ∧
  (past_join (main s) → producer s = Finished (producer_raises c)) ∧
  (∀ r, main s = Left r → files s = files0 ∧ files s !! tmpdir c = None) ∧
  (∃ s', exec c (late_producer c) (initial files0) = Some s' ∧
         main s' = Left (body_end c)).
Proof.
  intros Hfresh Hexec.
  destruct (exec_inv c files0 sched _ _ Hfresh
              (proj1 (initial_inv c files0)) (proj2 (initial_inv c files0)) Hexec)
    as [Hinv Hw].
  unfold inv, written in *. split; [|split; [|split]].
  - destruct (main s); try done; intros _; destruct Hinv as (-> & -> & _);
      exists {[fifo_name]}; by rewrite lookup_insert_eq, elem_of_singleton.
  - destruct (main s); try done; intros _;
      (destruct (producer s) as [| |o]; simpl in *; try tauto);
      destruct Hw as [_ ->]; reflexivity.
  - intros r Hr. rewrite Hr in Hinv. destruct Hinv as (-> & _). done.
  - eexists. split; [by apply late_producer_run|done].
Qed.

Lemma raising_run_exec :
  exec raising_run alternating (initial ∅) = Some raising_run_end.
Proof. vm_compute. reflexivity. Qed.

Lemma fifo_scoped_lifetime_witness :
  (∅ : fs) !! tmpdir raising_run = None ∧
  exec raising_run alternating (initial ∅) = Some raising_run_end ∧
  files raising_run_end = ∅ ∧
  files raising_run_end !! tmpdir raising_run = None.
Proof.
  assert ((∅ : fs) !! tmpdir raising_run = None) as Hfresh by apply lookup_empty.
  split; [exact Hfresh|]. split; [exact raising_run_exec|].
  destruct (fifo_scoped_lifetime raising_run ∅ alternating raising_run_end
              Hfresh raising_run_exec) as (_ & _ & Hleft & _).
  exact (Hleft (Some (Exit 0)) eq_refl).
Defined.

(** C3, as the code has it. Whatever the producer does, when the [with]
    statement is left the exception going up, if any, is the one the body
    ended with; an exception of the producer stays in its finished thread,
    the fifo holds what the producer wrote before it, and the cleanup is
    done. *)
Theorem producer_error_confined (c : scenario) (files0 : fs)
    (sched : list actor) (s : state) (r : option exc) :
  files0 !! tmpdir c = None →
  exec c sched (initial files0) = Some s →
  main s = Left r →
  r = body_end c ∧
  producer s = Finished (producer_raises c) ∧
  channel s = chunks c ∧
  files s = files0.
Proof.
  intros Hfresh Hexec Hr.
  destruct (exec_inv c files0 sched _ _ Hfresh
              (proj1 (initial_inv c files0)) (proj2 (initial_inv c files0)) Hexec)
    as [Hinv Hw].
  unfold inv, written in *. rewrite Hr in Hinv.
  destruct Hinv as (-> & Hfin & ->).
  destruct (producer s) as [| |o]; simpl in *; try tauto.
  by destruct Hw as [-> ->].
Qed.

Lemma producer_error_confined_witness :
  (∅ : fs) !! tmpdir raising_run = None ∧
  exec raising_run alternating (initial ∅) = Some raising_run_end ∧
  main raising_run_end = Left (Some (Exit 0)) ∧
  Some (Exit 0) = body_end raising_run ∧
  producer raising_run_end = Finished (Some ValueError) ∧
  channel raising_run_end = [u "one"; u "two"] ∧
  files raising_run_end = ∅.
Proof.
  assert ((∅ : fs) !! tmpdir raising_run = None) as Hfresh by apply lookup_empty.
  split; [exact Hfresh|]. split; [exact raising_run_exec|].
  split; [reflexivity|].
  apply (producer_error_confined raising_run ∅ alternating raising_run_end
           (Some (Exit 0)) Hfresh raising_run_exec).
  reflexivity.
Defined.

(** C3, as stated, fails: the producer raises [ValueError] after the
    first of three documents, and the [with] statement is left with
    nothing going up when its body fell through, and with the
    [SystemExit] of status 0 when its body ended with [sys.exit(0)]; in
    both cases the fifo held one document. *)
Lemma producer_error_swallowed :
  producer_raises (truncated_run None) = Some ValueError ∧
  exec (truncated_run None) (late_producer (truncated_run None)) (initial ∅)
  = Some (mkState ∅ [json_document (u "d1") (u "alpha") ++ [10%N]]
                  (Finished (Some ValueError)) (Left None)) ∧
  exec (truncated_run (Some (Exit 0)))
       (late_producer (truncated_run (Some (Exit 0)))) (initial ∅)
  = Some (mkState ∅ [json_document (u "d1") (u "alpha") ++ [10%N]]
                  (Finished (Some ValueError)) (Left (Some (Exit 0)))).
Proof. by vm_compute. Qed.

(** *** More on the scope *)




(** The cleanup cannot be run twice: once the [with] statement is left,
    a second call of [__exit__] raises [FileNotFoundError] at the removal
    of the fifo and changes no file. *)
Theorem second_exit_raises (c : scenario) (files0 : fs)
    (sched : list actor) (s : state) (r : option exc) :
  files0 !! tmpdir c = None →
  exec c sched (initial files0) = Some s →
  main s = Left r →
  exit_again c s
  = Some (mkState files0 (channel s) (producer s)
                  (Left (Some (OsError FileNotFoundError)))).
Proof.
  intros Hfresh Hexec Hr.
  destruct (exec_inv c files0 sched _ _ Hfresh
              (proj1 (initial_inv c files0)) (proj2 (initial_inv c files0)) Hexec)
    as [Hinv _].
  unfold inv in Hinv. rewrite Hr in Hinv. destruct Hinv as (Hf & Hfin & _).
  unfold exit_again. rewrite Hf. destruct (producer s) as [| |o]; try done.
  cbn [exec step]. unfold main_step at 1. cbn [main producer files channel].
  unfold main_step at 1. cbn [main producer files channel].
  unfold unlink. by rewrite Hfresh.
Qed.

Lemma second_exit_raises_witness :
  (∅ : fs) !! tmpdir raising_run = None ∧
  exec raising_run alternating (initial ∅) = Some raising_run_end ∧
  main raising_run_end = Left (Some (Exit 0)) ∧
  exit_again raising_run raising_run_end
  = Some (mkState ∅ [u "one"; u "two"] (Finished (Some ValueError))
                  (Left (Some (OsError FileNotFoundError)))).
Proof.
  assert ((∅ : fs) !! tmpdir raising_run = None) as Hfresh by apply lookup_empty.
  split; [exact Hfresh|]. split; [exact raising_run_exec|].
  split; [reflexivity|].
  exact (second_exit_raises raising_run ∅ alternating raising_run_end
           (Some (Exit 0)) Hfresh raising_run_exec eq_refl).
Defined.

End StreamGeneratorFacts.

(** ** The dispatcher *)
Module DispatcherFacts.
Import Dispatcher.

Section Handler.
Context {T V R : Type} `{Countable T}.
Variable type_of : V → T.

Lemma register_all_other (hs : list (T * (V → R))) : ∀ d0 d t,
  register_all hs d0 = inr d → t ∉ hs.*1 → d !! t = d0 !! t.
Proof.
  induction hs as [|[t0 h0] hs IH]; intros d0 d t; simpl.
  - by intros [= <-].
  - unfold register. destruct (d0 !! t0) eqn:E; [done|].
    intros Hreg [Hne Hnin]%not_elem_of_cons.
    rewrite (IH _ _ _ Hreg Hnin). by rewrite lookup_insert_ne.
Qed.

Lemma register_all_fresh (hs : list (T * (V → R))) : ∀ d0 d t,
  register_all hs d0 = inr d → is_Some (d0 !! t) → t ∉ hs.*1.
Proof.
  induction hs as [|[t0 h0] hs IH]; intros d0 d t; simpl.
  - intros _ _. apply not_elem_of_nil.
  - unfold register. destruct (d0 !! t0) eqn:E; [done|].
    intros Hreg Hsome. apply not_elem_of_cons. split.
    + intros ->. rewrite E in Hsome. by destruct Hsome.
    + eapply IH; [done|]. destruct (decide (t0 = t)) as [->|Hne].
      * by rewrite lookup_insert_eq.
      * by rewrite lookup_insert_ne.
Qed.

Lemma register_all_lookup (hs : list (T * (V → R))) : ∀ d0 d t h,
  register_all hs d0 = inr d → (t, h) ∈ hs → d !! t = Some h.
Proof.
  induction hs as [|[t0 h0] hs IH]; intros d0 d t h; simpl.
  - by intros _ ?%elem_of_nil.
  - unfold register. destruct (d0 !! t0) eqn:E; [done|].
    intros Hreg [[= -> ->]|Hin]%elem_of_cons; [|by eapply IH].
    rewrite (register_all_other _ _ _ _ Hreg).
    + by rewrite lookup_insert_eq.
    + eapply register_all_fresh; [done|]. by rewrite lookup_insert_eq.
Qed.

(** C9. After the handlers [hs] were registered without error, a value
    whose exact type has a handler in [hs] is dispatched to that handler
    and the handler's result is returned; a value whose exact type has no
    handler in [hs] fails with [UnsupportedVariant] of its type. *)
Theorem dispatch_exact (hs : list (T * (V → R))) (d : gmap T (V → R)) :
  register_all hs ∅ = inr d →
  (∀ t h v, (t, h) ∈ hs → type_of v = t → dispatch type_of d v = inr (h v)) ∧
  (∀ v, type_of v ∉ hs.*1 →
        dispatch type_of d v = inl (UnsupportedVariant (type_of v))).
Proof.
  intros Hreg. split.
  - intros t h v Hin <-. unfold dispatch.
    by rewrite (register_all_lookup _ _ _ _ _ Hreg Hin).
  - intros v Hnin. unfold dispatch.
    by rewrite (register_all_other _ _ _ _ Hreg Hnin), lookup_empty.
Qed.

End Handler.

Lemma chandler_registered tmpdir :
  register_all (chandler tmpdir) ∅ = inr (registry tmpdir).
Proof.
  unfold chandler, registry. cbn [register_all]. unfold register.
  rewrite lookup_empty. by rewrite lookup_insert_ne, lookup_empty.
Qed.

Lemma dispatch_exact_witness :
  register_all (chandler "/tmp/tmpk3v9") ∅ = inr (registry "/tmp/tmpk3v9") ∧
  dispatch doc_class (registry "/tmp/tmpk3v9") robust
  = inr (trec_collection robust) ∧
  dispatch doc_class (registry "/tmp/tmpk3v9") unknown_collection
  = inl (UnsupportedVariant "datamaestro_text.data.ir.trec.AdhocDocuments").
Proof.
  split; [apply chandler_registered|].
  destruct (dispatch_exact doc_class (chandler "/tmp/tmpk3v9") _
              (chandler_registered "/tmp/tmpk3v9")) as [Hreg Hnone].
  split.
  - apply (Hreg (doc_class robust) trec_collection); [left|reflexivity].
  - apply Hnone. cbn. rewrite !not_elem_of_cons.
    repeat split; try discriminate. apply not_elem_of_nil.
Defined.


End DispatcherFacts.

(** ** The folds of Robust 2004 *)
Module RobustFacts.
Import Robust.

Lemma plain_name_spec k :
  plain_name k = true →
  k ≠ "all" ∧ ∀ x, k ≠ "tr" +:+ x ∧ k ≠ "va" +:+ x.
Proof.
  unfold plain_name.
  intros [[Htr%negb_true_iff Hva%negb_true_iff]%andb_true_iff
          Hall%negb_true_iff]%andb_true_iff.
  split.
  - intros ->. vm_compute in Hall. discriminate.
  - intros x. split; intros ->; [vm_compute in Htr|vm_compute in Hva]; discriminate.
Qed.

Lemma index_lookup {A} (l : list A) (i : nat) :
  (i < length l)%nat → is_Some (index l (Z.of_nat i - 1)).
Proof.
  intros Hi. unfold index.
  destruct (Z.leb_spec 0 (Z.of_nat i - 1)).
  - apply lookup_lt_is_Some. lia.
  - destruct (Z.leb_spec 0 (Z.of_nat (length l) + (Z.of_nat i - 1))); [|lia].
    apply lookup_lt_is_Some. lia.
Qed.

Lemma index_elem_of {A} (l : list A) (i : Z) x : index l i = Some x → x ∈ l.
Proof.
  unfold index. repeat case_match; try done; apply list_elem_of_lookup_2.
Qed.

Section Derive.
Variable folds : gmap string (gset string).
Variable all : gset string.
Variable ids : list string.
Hypothesis Hplain : ∀ k, is_Some (folds !! k) → plain_name k = true.
Hypothesis Hids : ∀ id, id ∈ ids → is_Some (folds !! id).
Hypothesis Hnodup : NoDup ids.

Local Abbreviation agrees := (Robust.agrees folds).
Local Abbreviation entries := (Robust.entries folds all ids).
Local Abbreviation untouched := (Robust.untouched ids).

Lemma add_fold_spec D i :
  agrees D → (i < length ids)%nat →
  ∃ id prev te va,
    ids !! i = Some id ∧ index ids (Z.of_nat i - 1) = Some prev ∧
    folds !! id = Some te ∧ folds !! prev = Some va ∧
    add_fold all ids D i
    = Some (<["va" +:+ id := va]> (<["tr" +:+ id := all ∖ te ∖ va]> D)).
Proof.
  intros HD Hi.
  destruct (lookup_lt_is_Some_2 ids i Hi) as [id Hid].
  destruct (index_lookup ids i Hi) as [prev Hprev].
  destruct (Hids id) as [te Hte]; [by eapply list_elem_of_lookup_2|].
  destruct (Hids prev) as [va Hva]; [by eapply index_elem_of|].
  exists id, prev, te, va. repeat split; try done.
  unfold add_fold. rewrite Hid, Hprev. cbn [mbind option_bind].
  rewrite (HD id), Hte by (apply Hplain; eauto). cbn [mbind option_bind].
  rewrite (HD prev), Hva by (apply Hplain; eauto). cbn [mbind option_bind].
  assert (prev ≠ "tr" +:+ id) as Hne
    by (apply (plain_name_spec prev); apply Hplain; eauto).
  rewrite lookup_insert_ne by done.
  rewrite (HD prev), Hva by (apply Hplain; eauto). done.
Qed.

Lemma add_folds_spec range : ∀ D,
  NoDup range → (∀ i, i ∈ range → (i < length ids)%nat) → agrees D →
  ∃ D', add_folds all ids range D = Some D' ∧ agrees D' ∧
        (∀ i, i ∈ range → entries D' i) ∧
        (∀ key, untouched range key → D' !! key = D !! key).
Proof.
  induction range as [|i range IH]; intros D Hnd Hlt HD.
  - exists D. split; [done|]. split; [done|].
    split; [intros i Hi; by apply elem_of_nil in Hi|done].
  - apply NoDup_cons in Hnd as [Hi Hnd].
    destruct (add_fold_spec D i HD) as (id & prev & te & va & Hid & Hprev & Hte & Hva & Hadd).
    { apply Hlt. left. }
    cbn [add_folds]. rewrite Hadd.
    set (D1 := <["va" +:+ id := va]> (<["tr" +:+ id := all ∖ te ∖ va]> D)).
    assert (agrees D1) as HD1.
    { intros k Hk. unfold D1.
      destruct (plain_name_spec k Hk) as [_ Hne]. destruct (Hne id).
      rewrite !lookup_insert_ne by done. by apply HD. }
    destruct (IH D1 Hnd) as (D' & -> & HD' & Hentries & Hsame); [|done|].
    { intros j Hj. apply Hlt. by right. }
    exists D'. split; [done|]. split; [done|]. split.
    + intros j [->|Hj]%elem_of_cons; [|by apply Hentries].
      intros id' prev' te' va' Hid' Hprev' Hte' Hva'.
      assert (id' = id) as -> by congruence.
      assert (prev' = prev) as -> by congruence.
      assert (te' = te) as -> by congruence.
      assert (va' = va) as -> by congruence.
      rewrite !Hsame.
      * unfold D1. rewrite lookup_insert_ne by discriminate.
        by rewrite !lookup_insert_eq.
      * intros j idj Hj Hidj. split; [discriminate|].
        intros [= Heq]. apply Hi.
        by rewrite <-(NoDup_lookup _ _ _ _ Hnodup Hidj (eq_trans Hid (f_equal Some Heq))).
      * intros j idj Hj Hidj. split; [|discriminate].
        intros [= Heq]. apply Hi.
        by rewrite <-(NoDup_lookup _ _ _ _ Hnodup Hidj (eq_trans Hid (f_equal Some Heq))).
    + intros key Hkey. rewrite Hsame.
      * unfold D1. destruct (Hkey i id) as [? ?]; [left|done|].
        by rewrite !lookup_insert_ne.
      * intros j idj Hj. apply Hkey. by right.
Qed.

End Derive.

Lemma fold_ids_perm (folds : gmap string (gset string)) :
  fold_ids folds ≡ₚ (map_to_list folds).*1.
Proof. apply merge_sort_Permutation. Qed.

Lemma elem_of_fold_ids (folds : gmap string (gset string)) id :
  id ∈ fold_ids folds ↔ is_Some (folds !! id).
Proof.
  rewrite fold_ids_perm, list_elem_of_fmap. split.
  - intros ([k s] & -> & Hin%elem_of_map_to_list). by exists s.
  - intros [s Hs]. exists (id, s). split; [done|]. by apply elem_of_map_to_list.
Qed.

Lemma length_fold_ids (folds : gmap string (gset string)) :
  length (fold_ids folds) = size folds.
Proof. by rewrite fold_ids_perm, length_fmap, length_map_to_list. Qed.

Lemma union_all_values (folds : gmap string (gset string)) :
  (0 < size folds)%nat →
  union_all (map_to_list folds).*2 = Some (⋃ (map_to_list folds).*2).
Proof.
  rewrite <-length_map_to_list, <-(length_fmap snd).
  destruct ((map_to_list folds).*2); simpl; [lia|done].
Qed.

(** What the module makes of the literal. When the literal is not empty
    and none of its names starts with [tr] or [va] or is [all], the
    statements after it raise nothing; the folds of the literal are kept;
    [all] is their union; and for every fold, with the fold before it in
    the sorted names (the last one before the first), the entry [va] of
    the fold is that fold before it, and the entry [tr] is what is left
    of [all] without the two: [tr], [va] and the fold itself cover [all],
    and [tr] shares no topic with either. *)
Theorem derived_folds (folds : gmap string (gset string)) :
  (0 < size folds)%nat →
  forallb plain_name (map_to_list folds).*1 = true →
  ∃ D, derive folds = Some D ∧
       D !! "all" = Some (⋃ (map_to_list folds).*2) ∧
       (∀ k s, folds !! k = Some s → D !! k = Some s) ∧
       ∀ i id prev te va,
         fold_ids folds !! i = Some id →
         index (fold_ids folds) (Z.of_nat i - 1) = Some prev →
         folds !! id = Some te → folds !! prev = Some va →
         ∃ tr, D !! ("tr" +:+ id) = Some tr ∧ D !! ("va" +:+ id) = Some va ∧
               tr ∪ va ∪ te = ⋃ (map_to_list folds).*2 ∧ tr ## va ∧ tr ## te.
Proof.
  intros Hsize Hnames. set (all := ⋃ (map_to_list folds).*2).
  assert (∀ k, is_Some (folds !! k) → plain_name k = true) as Hplain.
  { intros k [s Hs]. rewrite forallb_forall in Hnames. apply Hnames.
    apply list_elem_of_In, list_elem_of_fmap. exists (k, s).
    split; [done|]. by apply elem_of_map_to_list. }
  assert (∀ k s, folds !! k = Some s → s ⊆ all) as Hsub.
  { intros k s Hs x Hx. apply elem_of_union_list. exists s. split; [|done].
    apply list_elem_of_fmap. exists (k, s). split; [done|].
    by apply elem_of_map_to_list. }
  assert (NoDup (fold_ids folds)) as Hnd.
  { rewrite fold_ids_perm. apply NoDup_fst_map_to_list. }
  destruct (add_folds_spec folds all (fold_ids folds) Hplain
              (λ id, proj1 (elem_of_fold_ids folds id)) Hnd
              (seq 0 (size folds)) folds) as (D' & Hadd & HD' & Hentries & _).
  { apply NoDup_seq. }
  { intros i Hi%elem_of_seq. rewrite length_fold_ids. lia. }
  { by intros k _. }
  exists (<["all" := all]> D'). split; [|split; [|split]].
  - unfold derive. rewrite union_all_values by done. fold all. cbn [mbind option_bind].
    by rewrite Hadd.
  - by rewrite lookup_insert_eq.
  - intros k s Hs. destruct (plain_name_spec k) as [Hk _]; [apply Hplain; eauto|].
    rewrite lookup_insert_ne by done. rewrite HD' by (apply Hplain; eauto). done.
  - intros i id prev te va Hid Hprev Hte Hva.
    destruct (Hentries i) with id prev te va as [Htr Hval]; try done.
    { apply elem_of_seq. apply lookup_lt_Some in Hid.
      rewrite length_fold_ids in Hid. lia. }
    exists (all ∖ te ∖ va). rewrite !lookup_insert_ne by discriminate.
    split; [done|]. split; [done|].
    pose proof (Hsub _ _ Hte). pose proof (Hsub _ _ Hva).
    split; [|set_solver]. apply set_eq. intros x.
    rewrite !elem_of_union, !elem_of_difference.
    destruct (decide (x ∈ te)), (decide (x ∈ va)); set_solver.
Qed.

Lemma derived_folds_witness :
  (0 < size FOLDS_literal)%nat ∧
  forallb plain_name (map_to_list FOLDS_literal).*1 = true ∧
  ∃ D, derive FOLDS_literal = Some D ∧
       D !! "all" = Some (⋃ (map_to_list FOLDS_literal).*2) ∧
       (∀ k s, FOLDS_literal !! k = Some s → D !! k = Some s) ∧
       ∀ i id prev te va,
         fold_ids FOLDS_literal !! i = Some id →
         index (fold_ids FOLDS_literal) (Z.of_nat i - 1) = Some prev →
         FOLDS_literal !! id = Some te → FOLDS_literal !! prev = Some va →
         ∃ tr, D !! ("tr" +:+ id) = Some tr ∧ D !! ("va" +:+ id) = Some va ∧
               tr ∪ va ∪ te = ⋃ (map_to_list FOLDS_literal).*2
               ∧ tr ## va ∧ tr ## te.
Proof.
  assert (0 < size FOLDS_literal)%nat as H1
    by (apply Nat.ltb_lt; vm_compute; reflexivity).
  assert (forallb plain_name (map_to_list FOLDS_literal).*1 = true) as H2
    by (vm_compute; reflexivity).
  split; [exact H1|]. split; [exact H2|].
  exact (derived_folds FOLDS_literal H1 H2).
Defined.

(** The five folds of the literal share no topic, and the first fold is
    validated on the last. *)
Example literal_folds_disjoint :
  forallb (fun a => forallb (fun b => bool_decide (a = b ∨ a.2 ## b.2))
                            (map_to_list FOLDS_literal))
          (map_to_list FOLDS_literal) = true
  ∧ size (⋃ (map_to_list FOLDS_literal).*2) = 250%nat
  ∧ (FOLDS ≫= (.!! "vaf1")) = FOLDS_literal !! "f5".
Proof. by vm_compute. Qed.

#[local] Instance str_le_total : Total str_le.
Proof. intros x y. apply String.leb_total. Qed.

(** What [fold] hands over for a name: a [KeyError] exactly when the
    dictionary has no such fold; otherwise the topics of the fold, each
    once, in the order of the strings. *)
Theorem fold_sorted (folds : gmap string (gset string)) (name : string) :
  match fold folds name with
  | Some ids =>
    ∃ topics, folds !! name = Some topics ∧ Sorted str_le ids ∧ NoDup ids
              ∧ ∀ x, x ∈ ids ↔ x ∈ topics
  | None => folds !! name = None
  end.
Proof.
  unfold fold. destruct (folds !! name) as [topics|]; [|done].
  cbn [mbind option_bind]. exists topics. split; [done|].
  unfold sorted. split; [apply Sorted_merge_sort, _|]. split.
  - rewrite merge_sort_Permutation. apply NoDup_elements.
  - intros x. rewrite merge_sort_Permutation. apply elem_of_elements.
Qed.

End RobustFacts.

(** ** Saving a scorer *)
Module InteractionScorerFacts.
Import InteractionScorer.

Section Save.
Context {T : Type}.
Implicit Types state cur saved : gmap string (tensor T).

(** The loop over a copy of the keys: the keys still to come hold what
    they held at the start, the others hold what is kept of it. *)
Lemma save_loop_spec state keys :
  NoDup keys →
  ∀ cur,
    (∀ k, k ∈ keys → is_Some (state !! k) ∧ cur !! k = state !! k) →
    (∀ k, k ∉ keys → cur !! k = state !! k ≫= kept) →
    ∃ saved, save_loop keys cur = Some saved
             ∧ ∀ k, saved !! k = state !! k ≫= kept.
Proof.
  induction 1 as [|key keys Hnotin Hnd IH]; intros cur Hin Hout.
  - exists cur. split; [done|]. intros k. apply Hout, not_elem_of_nil.
  - destruct (Hin key) as [[t Ht] Hcur]; [by left|].
    cbn [save_loop]. unfold save_step. rewrite Hcur, Ht.
    cbn [mbind option_bind].
    destruct (requires_grad t) eqn:Hg; apply IH.
    + intros k Hk. destruct (Hin k) as [Hs Hk']; [by right|].
      split; [done|]. rewrite lookup_insert_ne; [done|].
      by intros ->.
    + intros k Hk. destruct (decide (k = key)) as [->|Hne].
      * rewrite lookup_insert_eq, Ht. cbn [mbind option_bind].
        unfold kept. by rewrite Hg.
      * rewrite lookup_insert_ne by done. apply Hout.
        intros [->|Hk']%elem_of_cons; done.
    + intros k Hk. destruct (Hin k) as [Hs Hk']; [by right|].
      split; [done|]. rewrite lookup_delete_ne; [done|].
      by intros ->.
    + intros k Hk. destruct (decide (k = key)) as [->|Hne].
      * rewrite lookup_delete_eq, Ht. cbn [mbind option_bind].
        unfold kept. by rewrite Hg.
      * rewrite lookup_delete_ne by done. apply Hout.
        intros [->|Hk']%elem_of_cons; done.
Qed.

(** [save] never fails on a key, and what it hands over for writing
    holds exactly the tensors that required a gradient, each by its
    contents alone; the others are gone. *)
Theorem saved_state state :
  ∃ saved, save state = Some saved
           ∧ ∀ key, saved !! key = state !! key ≫= kept.
Proof.
  unfold save. apply save_loop_spec.
  - apply NoDup_fst_map_to_list.
  - intros k [[k' t] [-> Hk]]%list_elem_of_fmap.
    apply elem_of_map_to_list in Hk. cbn [fst]. by rewrite Hk.
  - intros k Hk. destruct (state !! k) as [t|] eqn:Ht; [|done].
    exfalso. apply Hk. apply list_elem_of_fmap. exists (k, t).
    split; [done|]. by apply elem_of_map_to_list.
Qed.

End Save.

End InteractionScorerFacts.

(** ** The evaluation task *)
Module TrecEvalFacts.
Import Robust TrecEval.

Lemma ascii_compare_lt_trans (a b c : ascii) :
  Ascii.compare a b = Lt → Ascii.compare b c = Lt → Ascii.compare a c = Lt.
Proof.
  unfold Ascii.compare. rewrite !N.compare_lt_iff. lia.
Qed.

Lemma compare_lt_trans (s1 : string) : ∀ s2 s3,
  String.compare s1 s2 = Lt → String.compare s2 s3 = Lt →
  String.compare s1 s3 = Lt.
Proof.
  induction s1 as [|a s1 IH]; intros [|b s2] [|c s3]; cbn [String.compare];
    try done.
  destruct (Ascii.compare a b) eqn:Hab; [| |done].
  - apply Ascii.compare_eq_iff in Hab as ->.
    destruct (Ascii.compare b c); [apply IH|done|done].
  - intros _. destruct (Ascii.compare b c) eqn:Hbc; [| |done].
    + apply Ascii.compare_eq_iff in Hbc as <-. by rewrite Hab.
    + by rewrite (ascii_compare_lt_trans _ _ _ Hab Hbc).
Qed.

#[local] Instance str_le_transitive : Transitive str_le.
Proof.
  intros x y z. unfold str_le, String.leb.
  destruct (String.compare x y) eqn:Hxy; [| |done].
  - by apply String.compare_eq_iff in Hxy as ->.
  - intros _. destruct (String.compare y z) eqn:Hyz; [| |done].
    + apply String.compare_eq_iff in Hyz as <-. by rewrite Hxy.
    + by rewrite (compare_lt_trans _ _ _ Hxy Hyz).
Qed.

#[local] Instance str_le_linear : Total str_le.
Proof. intros x y. apply String.leb_total. Qed.

#[local] Instance str_le_reflexive : Reflexive str_le.
Proof. intros x. by destruct (total str_le x x). Qed.

#[local] Instance str_le_antisymmetric : AntiSymm (=) str_le.
Proof. intros x y. apply String.leb_antisym. Qed.

#[local] Instance by_key_transitive {A} : Transitive (@by_key A).
Proof. intros x y z. unfold by_key. apply transitivity. Qed.

#[local] Instance by_key_linear {A} : Total (@by_key A).
Proof. intros x y. unfold by_key. apply total, _. Qed.

#[local] Instance by_key_reflexive {A} : Reflexive (@by_key A).
Proof. intros x. by destruct (total by_key x x). Qed.

(** The last element of a sorted list is above all of it. *)
Lemma last_sorted_max {A} (R : relation A) `{!Reflexive R} (l : list A) (x : A) :
  StronglySorted R l → last l = Some x → ∀ y, y ∈ l → R y x.
Proof.
  induction 1 as [|a l Hl IH Ha]; [done|].
  destruct l as [|b l].
  - intros [= ->] y ->%list_elem_of_singleton. done.
  - intros Hlast y [->|Hy]%elem_of_cons.
    + rewrite Forall_forall in Ha. apply Ha. change (last (b :: l) = Some x) in Hlast.
      by apply last_Some_elem_of.
    + by apply IH.
Qed.

Lemma last_sorted_items {A} (items : list (string * A)) :
  match last (sorted_items items) with
  | Some x => x ∈ items ∧ ∀ y, y ∈ items → str_le y.1 x.1
  | None => items = []
  end.
Proof.
  unfold sorted_items.
  destruct (last (merge_sort by_key items)) as [x|] eqn:Hlast.
  - split.
    + apply last_Some_elem_of in Hlast. by rewrite merge_sort_Permutation in Hlast.
    + intros y Hy. rewrite <- (merge_sort_Permutation by_key) in Hy.
      revert y Hy. apply (last_sorted_max by_key); [|done].
      * apply StronglySorted_merge_sort; apply _.
  - apply last_None in Hlast. apply Permutation_nil_r.
    rewrite <- Hlast. by rewrite merge_sort_Permutation.
Qed.

(** With distinct keys, the item with the greatest key is the last one
    of the sorted items. *)
Lemma last_sorted_items_max {A} (items : list (string * A)) (x : string * A) :
  NoDup items.*1 → x ∈ items → (∀ y, y ∈ items → str_le y.1 x.1) →
  last (sorted_items items) = Some x.
Proof.
  intros Hnd Hx Hmax. pose proof (last_sorted_items items) as H.
  destruct (last (sorted_items items)) as [x'|];
    [|subst; by apply elem_of_nil in Hx].
  destruct H as [Hx' Hmax']. f_equal.
  assert (x'.1 = x.1) as Hk.
  { apply (anti_symm str_le); [by apply Hmax|by apply Hmax']. }
  apply list_elem_of_lookup in Hx as [i Hi], Hx' as [j Hj].
  assert (i = j) as ->; [|congruence].
  eapply NoDup_lookup; [done| |].
  - rewrite list_lookup_fmap, Hi. done.
  - rewrite list_lookup_fmap, Hj. cbn. by rewrite Hk.
Qed.

Lemma elem_of_sorted_keys {A} (m : gmap string A) (k : string) :
  k ∈ sorted (map_to_list m).*1 ↔ is_Some (m !! k).
Proof.
  unfold sorted. rewrite merge_sort_Permutation. split.
  - intros [[k' v] [-> Hk]]%list_elem_of_fmap.
    apply elem_of_map_to_list in Hk. by exists v.
  - intros [v Hv]. apply list_elem_of_fmap. exists (k, v).
    split; [done|]. by apply elem_of_map_to_list.
Qed.

Section Eval.
Context {V : Type}.
Variable aggregate : string → list V → V.
Implicit Types results : list (string * gmap string V).

Lemma values_of_spec measure results :
  match values_of measure results with
  | inr vs => vs = omap (λ q, q.2 !! measure) results
              ∧ ∀ q, q ∈ results → is_Some (q.2 !! measure)
  | inl e => e = KeyError measure ∧ ∃ q, q ∈ results ∧ q.2 !! measure = None
  end.
Proof.
  induction results as [|q rest IH]; cbn [values_of omap list_omap].
  - split; [done|]. by intros q ?%elem_of_nil.
  - destruct (q.2 !! measure) as [v|] eqn:Hq.
    + destruct (values_of measure rest) as [e|vs].
      * destruct IH as (-> & q' & Hq' & Hnone). split; [done|].
        exists q'. split; [by right|done].
      * destruct IH as [-> IH]. split; [done|].
        intros q' [->|Hq']%elem_of_cons; [by rewrite Hq|by apply IH].
    + split; [done|]. exists q. split; [by left|done].
Qed.

Lemma all_lines_spec results measures :
  match (all_lines aggregate results measures).2 with
  | None =>
    (all_lines aggregate results measures).1
    = (λ m, Line m "all" (aggregate m (omap (λ q, q.2 !! m) results)))
        <$> measures
    ∧ ∀ m q, m ∈ measures → q ∈ results → is_Some (q.2 !! m)
  | Some e =>
    ∃ m q, e = KeyError m ∧ m ∈ measures ∧ q ∈ results ∧ q.2 !! m = None
  end.
Proof.
  induction measures as [|m rest IH]; cbn [all_lines fmap list_fmap snd fst].
  - split; [done|]. by intros m q ?%elem_of_nil.
  - pose proof (values_of_spec m results) as Hm.
    destruct (values_of m results) as [e|vs]; cbn [snd fst].
    + destruct Hm as (-> & q & Hq & Hnone). exists m, q.
      split; [done|]. split; [by left|done].
    + destruct Hm as [-> Hm].
      destruct ((all_lines aggregate results rest).2) as [e|].
      * destruct IH as (m' & q & -> & Hm' & Hq & Hnone). exists m', q.
        split; [done|]. split; [by right|done].
      * destruct IH as [-> IH]. split; [done|].
        intros m' q [->|Hm']%elem_of_cons Hq; [by apply Hm|by apply IH].
Qed.

(** TrecEval runs to its end exactly when there is a query and every
    query has every measure of the query with the greatest identifier. *)
Theorem eval_completes results :
  NoDup results.*1 →
  (TrecEval aggregate results).2 = None ↔
  ∃ lastq, lastq ∈ results ∧ (∀ q, q ∈ results → str_le q.1 lastq.1)
           ∧ ∀ q m, q ∈ results → is_Some (lastq.2 !! m) → is_Some (q.2 !! m).
Proof.
  intros Hnd. unfold TrecEval, last_measures. split.
  - pose proof (last_sorted_items results) as Hlast.
    destruct (last (sorted_items results)) as [lastq|]; [|done].
    cbn [fmap option_fmap option_map snd]. intros Hnone.
    destruct Hlast as [Hin Hmax]. exists lastq. split; [done|]. split; [done|].
    pose proof (all_lines_spec results (sorted (map_to_list lastq.2).*1)) as H.
    rewrite Hnone in H. destruct H as [_ H].
    intros q m Hq Hm. apply H; [|done]. by apply elem_of_sorted_keys.
  - intros (lastq & Hin & Hmax & Hall).
    rewrite (last_sorted_items_max results lastq) by done.
    cbn [fmap option_fmap option_map snd].
    pose proof (all_lines_spec results (sorted (map_to_list lastq.2).*1)) as H.
    destruct ((all_lines aggregate results _).2) as [e|]; [|done].
    destruct H as (m & q & _ & Hm%elem_of_sorted_keys & Hq & Hnone).
    destruct (Hall q m Hq Hm) as [v Hv]. congruence.
Qed.

(** An error of TrecEval is the unbound variable of an empty result,
    with nothing printed, or the missing key of a measure that the last
    query has and some query lacks, after all the per-query lines. *)
Theorem eval_error results e :
  (TrecEval aggregate results).2 = Some e →
  match e with
  | UnboundLocalError =>
    results = [] ∧ (TrecEval aggregate results).1 = []
  | KeyError m =>
    (∃ lastq q, lastq ∈ results ∧ (∀ q', q' ∈ results → str_le q'.1 lastq.1)
                ∧ is_Some (lastq.2 !! m) ∧ q ∈ results ∧ q.2 !! m = None)
    ∧ query_lines results `prefix_of` (TrecEval aggregate results).1
  end.
Proof.
  unfold TrecEval, last_measures.
  pose proof (last_sorted_items results) as Hlast.
  destruct (last (sorted_items results)) as [lastq|];
    cbn [fmap option_fmap option_map snd fst].
  - intros He. destruct Hlast as [Hin Hmax].
    pose proof (all_lines_spec results (sorted (map_to_list lastq.2).*1)) as H.
    rewrite He in H. destruct H as (m & q & -> & Hm%elem_of_sorted_keys & Hq & Hnone).
    split; [by exists lastq, q|]. by eexists.
  - intros [= <-]. subst results. done.
Qed.

(** When TrecEval runs to its end it has printed the per-query lines
    and then, for each measure of the query with the greatest
    identifier, in the order of the names, the aggregate of the values
    of the measure over the queries, in their order in the result. *)
Theorem eval_output results :
  (TrecEval aggregate results).2 = None →
  ∃ lastq, lastq ∈ results ∧ (∀ q, q ∈ results → str_le q.1 lastq.1) ∧
    (TrecEval aggregate results).1
    = query_lines results
      ++ ((λ m, Line m "all" (aggregate m (omap (λ q, q.2 !! m) results)))
            <$> sorted (map_to_list lastq.2).*1).
Proof.
  unfold TrecEval, last_measures.
  pose proof (last_sorted_items results) as Hlast.
  destruct (last (sorted_items results)) as [lastq|]; [|done].
  cbn [fmap option_fmap option_map snd fst]. intros Hnone.
  destruct Hlast as [Hin Hmax]. exists lastq. split; [done|]. split; [done|].
  pose proof (all_lines_spec results (sorted (map_to_list lastq.2).*1)) as H.
  rewrite Hnone in H. destruct H as [-> _]. done.
Qed.

(** The per-query lines are the measures of the queries, no more and no
    less, and come in the order of the query identifiers. *)
Theorem query_lines_spec results :
  (∀ m q v, Line m q v ∈ query_lines results
            ↔ ∃ ms, (q, ms) ∈ results ∧ ms !! m = Some v)
  ∧ StronglySorted str_le (scope_of <$> query_lines results).
Proof.
  unfold query_lines. split.
  - intros m q v. rewrite list_elem_of_In, in_flat_map. split.
    + intros ([q' ms] & Hq%list_elem_of_In & Hl).
      unfold sorted_items in Hq, Hl. rewrite merge_sort_Permutation in Hq.
      cbn [fst snd] in Hl.
      apply in_map_iff in Hl as ([m' v'] & [= -> -> ->] & Hm%list_elem_of_In).
      rewrite merge_sort_Permutation in Hm. apply elem_of_map_to_list in Hm.
      by exists ms.
    + intros (ms & Hq & Hm). exists (q, ms). split.
      * apply list_elem_of_In. unfold sorted_items.
        by rewrite merge_sort_Permutation.
      * apply in_map_iff. exists (m, v). split; [done|].
        apply list_elem_of_In. unfold sorted_items.
        rewrite merge_sort_Permutation. by apply elem_of_map_to_list.
  - assert (StronglySorted by_key (sorted_items results)) as Hs.
    { apply StronglySorted_merge_sort; apply _. }
    induction Hs as [|q l Hl IH Hq]; [constructor|].
    cbn [flat_map]. rewrite fmap_app.
    induction (sorted_items (map_to_list q.2)) as [|m ms IHm]; [done|].
    cbn [List.map app fmap list_fmap scope_of]. constructor; [done|].
    apply Forall_app. split.
    + apply Forall_forall. intros k Hk.
      apply list_elem_of_fmap in Hk as (ln & -> & Hln).
      apply list_elem_of_In, in_map_iff in Hln as (m' & <- & _).
      cbn [scope_of]. apply reflexivity.
    + apply Forall_forall. intros k Hk.
      apply list_elem_of_fmap in Hk as (ln & -> & Hln).
      apply list_elem_of_In, in_flat_map in Hln as (q' & Hq'%list_elem_of_In & Hln).
      apply in_map_iff in Hln as (m' & <- & _). cbn [scope_of].
      rewrite Forall_forall in Hq. by apply Hq.
Qed.

End Eval.

Lemma eval_completes_witness :
  let results : list (string * gmap string Z) :=
    [("q2", {[ "map" := 3; "P_5" := 4 ]}); ("q1", {[ "map" := 1; "P_5" := 2 ]})] in
  NoDup results.*1 ∧
  (TrecEval (λ _, list_sum_Z) results).2 = None.
Proof.
  intros results. assert (NoDup results.*1) as Hnd.
  { apply NoDup_cons. split; [|apply NoDup_singleton].
    intros [=]%list_elem_of_singleton. }
  split; [done|]. apply (eval_completes (λ _, list_sum_Z) results Hnd).
  exists ("q2", {[ "map" := 3; "P_5" := 4 ]}). split; [by left|]. split.
  - intros q [->|[->|[]%elem_of_nil]%elem_of_cons]%elem_of_cons; reflexivity.
  - intros q m [->|[->|[]%elem_of_nil]%elem_of_cons]%elem_of_cons; [done|].
    cbn [snd]. intros [v Hv].
    apply lookup_insert_Some in Hv as [[<- _]|[_ Hv]]; [by eexists|].
    apply lookup_singleton_Some in Hv as [<- _]. by eexists.
Defined.

Lemma eval_error_witness :
  let results : list (string * gmap string Z) :=
    [("q2", {[ "map" := 3; "P_5" := 4 ]}); ("q1", {[ "map" := 1 ]})] in
  (TrecEval (λ _, list_sum_Z) results).2 = Some (KeyError "P_5") ∧
  (∃ lastq q, lastq ∈ results ∧ (∀ q', q' ∈ results → str_le q'.1 lastq.1)
                ∧ is_Some (lastq.2 !! "P_5") ∧ q ∈ results ∧ q.2 !! "P_5" = None)
    ∧ query_lines results `prefix_of` (TrecEval (λ _, list_sum_Z) results).1.
Proof.
  intros results.
  assert ((TrecEval (λ _, list_sum_Z) results).2 = Some (KeyError "P_5")) as H
    by (vm_compute; reflexivity).
  split; [exact H|]. exact (eval_error (λ _, list_sum_Z) results _ H).
Defined.

Lemma eval_output_witness :
  let results : list (string * gmap string Z) :=
    [("q2", {[ "map" := 3; "P_5" := 4 ]}); ("q1", {[ "map" := 1; "P_5" := 2 ]})] in
  (TrecEval (λ _, list_sum_Z) results).2 = None ∧
  ∃ lastq, lastq ∈ results ∧ (∀ q, q ∈ results → str_le q.1 lastq.1) ∧
    (TrecEval (λ _, list_sum_Z) results).1
    = query_lines results
      ++ ((λ m, Line m "all" (list_sum_Z (omap (λ q, q.2 !! m) results)))
            <$> sorted (map_to_list lastq.2).*1).
Proof.
  intros results.
  assert ((TrecEval (λ _, list_sum_Z) results).2 = None) as H
    by (vm_compute; reflexivity).
  split; [exact H|]. exact (eval_output (λ _, list_sum_Z) results H).
Defined.

End TrecEvalFacts.
